(** * Semantic-version classifier of the token list build script

    A shallow embedding of [determineVersionIncrement] (the build script and
    the copy kept in [tests/semantic-versioning.test.js]) and of the code of
    the build script that applies its verdict to the version of
    [base.tokenlist.json].

    Numbers are modelled as [Z]: the data model gives [chainId], [decimals]
    and the three version fields as integers. A Number is a double: a sum
    and what [parseInt] reads are rounded to 53 bits ([numberAdd],
    [parseInt]), and [`${n}`] is the plain decimal that is printed for
    integers up to 2^53. The results on the classifier use the key of a
    token only through equality of keys, and do not depend on how a number
    is printed; the results that depend on the value of a sum, of a printed
    or of a parsed number bound it by 2^53. *)

From Stdlib Require Import List String Ascii ZArith Bool Lia Permutation Sorted.
From Stdlib Require Import DecimalString DecimalZ DecimalPos.
Import ListNotations.

Local Open Scope string_scope.
Local Open Scope list_scope.

(** ** Data model *)

(** [interface Token] *)
Record Token : Type := mkToken {
  address  : string;
  chainId  : option Z;        (* chainId?: number *)
  name     : string;
  symbol   : string;
  decimals : Z;
  logoURI  : option string    (* logoURI?: string *)
}.

(** [type: "added" | "modified" | "deleted"] *)
Inductive ChangeType : Type := added | modified | deleted.

(** [interface TokenChange] *)
Record TokenChange : Type := mkChange {
  file   : string;
  type   : ChangeType;
  before : option (list Token);   (* before?: Token[] *)
  after  : option (list Token)    (* after?: Token[] *)
}.

(** The return type ["major" | "minor" | "patch" | null]: [None] is [null]. *)
Inductive Increment : Type := Major | Minor | Patch.
Definition Verdict : Type := option Increment.

(** The three local flags of the function. *)
Record Flags : Type := mkFlags {
  hasMajorChange : bool;
  hasMinorChange : bool;
  hasPatchChange : bool
}.

(** ** JavaScript values and strings *)

(** The values a token property can hold. *)
Inductive JsValue : Type :=
| JsUndefined
| JsString (s : string)
| JsNumber (n : Z).

(** Strict equality [===] on the values above. *)
Definition strictEq (x y : JsValue) : bool :=
  match x, y with
  | JsUndefined, JsUndefined => true
  | JsString s, JsString s' => String.eqb s s'
  | JsNumber n, JsNumber n' => Z.eqb n n'
  | _, _ => false
  end.

(** String conversion of an integer number, as a template literal does it:
    the decimal digits, after a ["-"] below zero. This is the conversion of
    the code up to 2^53 in absolute value; a greater Number is printed with
    the fewest digits that give it back, and in exponent form from 1e21. *)
Definition numberToString (n : Z) : string :=
  NilZero.string_of_int (Z.to_int n).

(** The Number nearest to an integer, ties going to the even significand:
    the rounding to 53 bits of a double. It is the identity up to 2^53 in
    absolute value; overflow to [Infinity] (beyond 2^1024) is left out. *)
Definition roundToDouble (x : Z) : Z :=
  let a := Z.abs x in
  let e := (Z.log2 a - 52)%Z in
  if (e <=? 0)%Z then x
  else
    let q := (a / 2 ^ e)%Z in
    let r := (a mod 2 ^ e)%Z in
    let half := (2 ^ (e - 1))%Z in
    let q' :=
      if (r <? half)%Z then q
      else if (half <? r)%Z then (q + 1)%Z
      else if Z.even q then q else (q + 1)%Z in
    (Z.sgn x * (q' * 2 ^ e))%Z.

(** [a + b] on two Numbers that hold integers: the exact sum, rounded. *)
Definition numberAdd (a b : Z) : Z := roundToDouble (a + b).

(** String conversion inside a template literal. *)
Definition toTemplateString (v : JsValue) : string :=
  match v with
  | JsUndefined => "undefined"
  | JsString s => s
  | JsNumber n => numberToString n
  end.

Definition ofOptNumber (o : option Z) : JsValue :=
  match o with Some n => JsNumber n | None => JsUndefined end.

Definition ofOptString (o : option string) : JsValue :=
  match o with Some s => JsString s | None => JsUndefined end.

(** [x || d] for an optional number: [undefined] and [0] are falsy. *)
Definition numberOrElse (o : option Z) (d : JsValue) : JsValue :=
  match o with
  | Some n => if Z.eqb n 0 then d else JsNumber n
  | None => d
  end.

(** [x || []] for an optional array: only [undefined] is falsy. *)
Definition orEmpty {A : Type} (o : option (list A)) : list A :=
  match o with Some l => l | None => [] end.

(** Property access [token[field]]. *)
Definition getField (field : string) (t : Token) : JsValue :=
  if String.eqb field "address" then JsString (address t)
  else if String.eqb field "chainId" then ofOptNumber (chainId t)
  else if String.eqb field "name" then JsString (name t)
  else if String.eqb field "symbol" then JsString (symbol t)
  else if String.eqb field "decimals" then JsNumber (decimals t)
  else if String.eqb field "logoURI" then ofOptString (logoURI t)
  else JsUndefined.

(** ** The JavaScript [Map], keyed by strings

    Entries are kept in insertion order; [set] on a key that is present
    replaces the value and keeps the entry's place. *)
Module JsMap.

Definition t (V : Type) : Type := list (string * V).

Definition empty {V : Type} : t V := [].

Fixpoint get {V : Type} (k : string) (m : t V) : option V :=
  match m with
  | [] => None
  | (k', v) :: m' => if String.eqb k' k then Some v else get k m'
  end.

Definition has {V : Type} (k : string) (m : t V) : bool :=
  match get k m with Some _ => true | None => false end.

Fixpoint set {V : Type} (k : string) (v : V) (m : t V) : t V :=
  match m with
  | [] => [(k, v)]
  | (k', v') :: m' =>
      if String.eqb k' k then (k', v) :: m' else (k', v') :: set k v m'
  end.

(** [new Map(entries)] *)
Definition ofEntries {V : Type} (entries : list (string * V)) : t V :=
  fold_left (fun m e => set (fst e) (snd e) m) entries empty.

Definition keys {V : Type} (m : t V) : list string := map fst m.

End JsMap.

(** ** The classifier *)

(** The key of the build script: [`${token.address}-${token.chainId}`]. *)
Definition tokenKey (t : Token) : string :=
  address t ++ "-" ++ toTemplateString (ofOptNumber (chainId t)).

(** The key of the test file:
    [`${token.address}-${token.chainId || "undefined"}`]. *)
Definition tokenKeyTest (t : Token) : string :=
  address t ++ "-" ++
  toTemplateString (numberOrElse (chainId t) (JsString "undefined")).

Definition fieldsToCheck : list string :=
  ["name"; "symbol"; "logoURI"; "decimals"].

(** The loop over [fieldsToCheck]; it stops at the first field that differs. *)
Fixpoint checkFields (fields : list string) (beforeToken afterToken : Token)
    (hasPatch : bool) : bool :=
  match fields with
  | [] => hasPatch
  | field :: fields' =>
      if negb (strictEq (getField field beforeToken)
                        (getField field afterToken))
      then true (* break *)
      else checkFields fields' beforeToken afterToken hasPatch
  end.

(** First loop over [beforeMap]: removed tokens. Stops at the first one. *)
Fixpoint checkRemoved (beforeKeys : list string) (afterMap : JsMap.t Token)
    (hasMajor : bool) : bool :=
  match beforeKeys with
  | [] => hasMajor
  | key :: rest =>
      if negb (JsMap.has key afterMap) then true (* break *)
      else checkRemoved rest afterMap hasMajor
  end.

(** Loop over [afterMap]: added tokens. No [break]. *)
Fixpoint checkAdded (afterKeys : list string) (beforeMap : JsMap.t Token)
    (hasMinor : bool) : bool :=
  match afterKeys with
  | [] => hasMinor
  | key :: rest =>
      checkAdded rest beforeMap
        (if negb (JsMap.has key beforeMap) then true else hasMinor)
  end.

(** Second loop over [beforeMap]: tokens present on both sides. It stops at
    the first token whose address or chainId differs; the result is the pair
    of [hasMajorChange] and [hasPatchChange]. *)
Fixpoint checkModified (beforeEntries : list (string * Token))
    (afterMap : JsMap.t Token) (hasMajor hasPatch : bool) : bool * bool :=
  match beforeEntries with
  | [] => (hasMajor, hasPatch)
  | (key, beforeToken) :: rest =>
      match JsMap.get key afterMap with
      | Some afterToken =>
          if negb (strictEq (JsString (address beforeToken))
                            (JsString (address afterToken)))
             || negb (strictEq (ofOptNumber (chainId beforeToken))
                               (ofOptNumber (chainId afterToken)))
          then (true, hasPatch) (* break *)
          else checkModified rest afterMap hasMajor
                 (checkFields fieldsToCheck beforeToken afterToken hasPatch)
      | None => checkModified rest afterMap hasMajor hasPatch
      end
  end.

Section Classifier.

(** The function that builds the key of a token: the only place where the
    build script and the test file differ. *)
Variable keyOf : Token -> string.

Definition tokenMap (tokens : list Token) : JsMap.t Token :=
  JsMap.ofEntries (map (fun token => (keyOf token, token)) tokens).

(** The branch [change.type === "modified"]. *)
Definition analyzeModified (change : TokenChange) (fl : Flags) : Flags :=
  let before := orEmpty (before change) in
  let after := orEmpty (after change) in
  let beforeMap := tokenMap before in
  let afterMap := tokenMap after in
  let major1 :=
    checkRemoved (JsMap.keys beforeMap) afterMap (hasMajorChange fl) in
  let minor1 :=
    checkAdded (JsMap.keys afterMap) beforeMap (hasMinorChange fl) in
  let '(major2, patch2) :=
    checkModified beforeMap afterMap major1 (hasPatchChange fl) in
  mkFlags major2 minor1 patch2.

(** The body of [for (const change of changes)]. *)
Definition analyzeChange (fl : Flags) (change : TokenChange) : Flags :=
  match type change with
  | deleted =>
      mkFlags true (hasMinorChange fl) (hasPatchChange fl)
  | added =>
      mkFlags (hasMajorChange fl) true (hasPatchChange fl)
  | modified => analyzeModified change fl
  end.

Definition noFlags : Flags := mkFlags false false false.

Definition analyzeChanges (changes : list TokenChange) : Flags :=
  fold_left analyzeChange changes noFlags.

(** The four [return] statements that end the function. *)
Definition resolveIncrement (fl : Flags) : Verdict :=
  if hasMajorChange fl then Some Major
  else if hasMinorChange fl then Some Minor
  else if hasPatchChange fl then Some Patch
  else None.

Definition classify (changes : list TokenChange) : Verdict :=
  resolveIncrement (analyzeChanges changes).

End Classifier.

(** [determineVersionIncrement] of the build script. *)
Definition determineVersionIncrement : list TokenChange -> Verdict :=
  classify tokenKey.

(** [determineVersionIncrement] as copied in the test file. *)
Definition determineVersionIncrementTest : list TokenChange -> Verdict :=
  classify tokenKeyTest.

(** ** The consumer of the verdict in the build script *)

(** The [version] object of [base.tokenlist.json]. *)
Record Version : Type := mkVersion {
  major : Z;
  minor : Z;
  patch : Z
}.

Section Consumer.

(** The properties of the template other than [version] and [timestamp];
    the object spread carries them over unchanged. *)
Variable Other : Type.

Record Template : Type := mkTemplate {
  version   : Version;
  timestamp : string;
  otherProperties : Other
}.

(** The two files the build script writes back. *)
Record Store : Type := mkStore {
  baseTokenlist  : Template;   (* base.tokenlist.json *)
  packageVersion : string      (* "version" of package.json *)
}.

(** The [switch (incrementType)]. *)
Definition newVersion (incrementType : Increment) (current : Version)
    : Version :=
  match incrementType with
  | Major => mkVersion (numberAdd (major current) 1) 0 0
  | Minor => mkVersion (major current) (numberAdd (minor current) 1) 0
  | Patch =>
      mkVersion (major current) (minor current) (numberAdd (patch current) 1)
  end.

(** [`${newVersion.major}.${newVersion.minor}.${newVersion.patch}`] *)
Definition versionString (v : Version) : string :=
  numberToString (major v) ++ "." ++ numberToString (minor v) ++ "." ++
  numberToString (patch v).

(** The [if (incrementType === null) ... else ...], given the value of
    [new Date().toISOString()]: the result is [updatedTemplate] and the
    two files as they are left. *)
Definition applyIncrement (incrementType : Verdict)
    (currentTimestamp : string) (st : Store) : Template * Store :=
  let tokenlistTemplate := baseTokenlist st in
  match incrementType with
  | None => (tokenlistTemplate, st)
  | Some inc =>
      let v := newVersion inc (version tokenlistTemplate) in
      let updatedTemplate :=
        mkTemplate v currentTimestamp (otherProperties tokenlistTemplate) in
      (updatedTemplate, mkStore updatedTemplate (versionString v))
  end.

(** The block [let updatedTemplate = tokenlistTemplate;
    if (shouldIncrementVersion) ...], given the parsed changes. *)
Definition incrementVersion (shouldIncrementVersion : bool)
    (changes : list TokenChange) (currentTimestamp : string) (st : Store)
    : Template * Store :=
  if shouldIncrementVersion then
    applyIncrement (determineVersionIncrement changes) currentTimestamp st
  else (baseTokenlist st, st).

End Consumer.

Arguments version {Other} _.
Arguments timestamp {Other} _.
Arguments otherProperties {Other} _.
Arguments baseTokenlist {Other} _.
Arguments packageVersion {Other} _.
Arguments applyIncrement {Other} _ _ _.
Arguments incrementVersion {Other} _ _ _ _.

(** * Vocabulary of the properties *)

(** The test [beforeToken.address !== afterToken.address ||
    beforeToken.chainId !== afterToken.chainId]. *)
Definition idDiffers (b a : Token) : bool :=
  negb (strictEq (JsString (address b)) (JsString (address a)))
  || negb (strictEq (ofOptNumber (chainId b)) (ofOptNumber (chainId a))).

(** Some field of [fieldsToCheck] differs. *)
Definition detailsDiffer (b a : Token) : bool :=
  checkFields fieldsToCheck b a false.

Definition entryIdDiffers (afterMap : JsMap.t Token) (e : string * Token)
    : bool :=
  match JsMap.get (fst e) afterMap with
  | Some a => idDiffers (snd e) a
  | None => false
  end.

Definition entryDetailsDiffer (afterMap : JsMap.t Token) (e : string * Token)
    : bool :=
  match JsMap.get (fst e) afterMap with
  | Some a => detailsDiffer (snd e) a
  | None => false
  end.

Definition orFlags (f g : Flags) : Flags :=
  mkFlags (hasMajorChange f || hasMajorChange g)
          (hasMinorChange f || hasMinorChange g)
          (hasPatchChange f || hasPatchChange g).

(** The verdict of higher priority, major > minor > patch > none. *)
Definition highest (v w : Verdict) : Verdict :=
  match v, w with
  | Some Major, _ | _, Some Major => Some Major
  | Some Minor, _ | _, Some Minor => Some Minor
  | Some Patch, _ | _, Some Patch => Some Patch
  | None, None => None
  end.

(** A map seen through [get] alone. *)
Definition Lookup : Type := string -> option Token.

(** Some key of the first map is absent from the second. *)
Definition Missing (f g : Lookup) : Prop :=
  exists k b, f k = Some b /\ g k = None.

(** Some key of both maps holds tokens that the test [differs] tells apart. *)
Definition Matched (differs : Token -> Token -> bool) (f g : Lookup) : Prop :=
  exists k b a, f k = Some b /\ g k = Some a /\ differs b a = true.

(** The record with its [before] (its [after]) sequence replaced. *)
Definition withBefore (c : TokenChange) (tokens : list Token) : TokenChange :=
  mkChange (file c) (type c) (Some tokens) (after c).

Definition withAfter (c : TokenChange) (tokens : list Token) : TokenChange :=
  mkChange (file c) (type c) (before c) (Some tokens).

(** The token with its [decimals] replaced. *)
Definition withDecimals (t : Token) (d : Z) : Token :=
  mkToken (address t) (chainId t) (name t) (symbol t) d (logoURI t).

(** The record with its missing sequences made explicit. *)
Definition withSequences (c : TokenChange) : TokenChange :=
  mkChange (file c) (type c)
    (Some (orEmpty (before c))) (Some (orEmpty (after c))).

Section Vocabulary.

Variable keyOf : Token -> string.

(** What one record contributes, starting from flags that are all unset. *)
Definition recordFlags (c : TokenChange) : Flags :=
  analyzeChange keyOf noFlags c.

Definition beforeLookup (c : TokenChange) : Lookup :=
  fun k => JsMap.get k (tokenMap keyOf (orEmpty (before c))).

Definition afterLookup (c : TokenChange) : Lookup :=
  fun k => JsMap.get k (tokenMap keyOf (orEmpty (after c))).

(** The last token of a sequence that has the given key. *)
Definition lastWithKey (k : string) (tokens : list Token) : option Token :=
  find (fun t => String.eqb (keyOf t) k) (rev tokens).

(** A file was deleted, a token was removed, or the address or chainId of a
    token that is on both sides differs. *)
Definition MajorCondition (c : TokenChange) : Prop :=
  type c = deleted \/
  (type c = modified /\
   (Missing (beforeLookup c) (afterLookup c) \/
    Matched idDiffers (beforeLookup c) (afterLookup c))).

(** A file or a token was added. *)
Definition MinorCondition (c : TokenChange) : Prop :=
  type c = added \/
  (type c = modified /\
   Missing (afterLookup c) (beforeLookup c)).

(** A field of [fieldsToCheck] differs for a token that is on both sides. *)
Definition PatchCondition (c : TokenChange) : Prop :=
  type c = modified /\
  Matched detailsDiffer (beforeLookup c) (afterLookup c).

Definition verdictMeets (cs : list TokenChange) (v : Verdict) : Prop :=
  match v with
  | Some Major => Exists MajorCondition cs
  | Some Minor => ~ Exists MajorCondition cs /\ Exists MinorCondition cs
  | Some Patch =>
      ~ Exists MajorCondition cs /\ ~ Exists MinorCondition cs /\
      Exists PatchCondition cs
  | None =>
      ~ Exists MajorCondition cs /\ ~ Exists MinorCondition cs /\
      ~ Exists PatchCondition cs
  end.

Definition recordMeets (c : TokenChange) (v : Verdict) : Prop :=
  match v with
  | Some Major => MajorCondition c
  | Some Minor => ~ MajorCondition c /\ MinorCondition c
  | Some Patch =>
      ~ MajorCondition c /\ ~ MinorCondition c /\ PatchCondition c
  | None =>
      ~ MajorCondition c /\ ~ MinorCondition c /\ ~ PatchCondition c
  end.

End Vocabulary.

(** Tokens of the sequence that have the same Map key are the same token. *)
Definition sameKeySameToken (keyOf : Token -> string) (tokens : list Token)
    : Prop :=
  forall t u, In t tokens -> In u tokens -> keyOf t = keyOf u -> t = u.

(** The sequence with, for each Map key, only the last token that has it. *)
Fixpoint keepLast (keyOf : Token -> string) (tokens : list Token)
    : list Token :=
  match tokens with
  | [] => []
  | t :: rest =>
      if existsb (fun u => String.eqb (keyOf u) (keyOf t)) rest
      then keepLast keyOf rest
      else t :: keepLast keyOf rest
  end.

(** The record with both sequences cut down by [keepLast]. *)
Definition keepLastRecord (keyOf : Token -> string) (c : TokenChange)
    : TokenChange :=
  mkChange (file c) (type c)
    (Some (keepLast keyOf (orEmpty (before c))))
    (Some (keepLast keyOf (orEmpty (after c)))).

(** An integer that is not negative and is below 2^53. *)
Definition safeNumber (n : Z) : Prop := (0 <= n < 2 ^ 53)%Z.

Definition safeVersion (v : Version) : Prop :=
  safeNumber (major v) /\ safeNumber (minor v) /\ safeNumber (patch v).

(** Tokens and records used at concrete inputs; the first ones are those of
    the test file. *)
Module Examples.

Definition tokenTest : Token :=
  mkToken "0x123" None "Test" "TEST" 18 (Some "test.png").

Definition tokenTestUpdated : Token :=
  mkToken "0x123" None "Test Updated" "TEST" 18 (Some "test.png").

Definition tokenNew : Token :=
  mkToken "0x456" None "New Token" "NEW" 18 (Some "new.png").

Definition tokenOld : Token :=
  mkToken "0x456" None "Old Token" "OLD" 18 (Some "old.png").

Definition tokenMoved : Token :=
  mkToken "0x789" None "Test" "TEST" 18 (Some "test.png").

Definition tokenSixDecimals : Token :=
  mkToken "0x123" None "Test" "TEST" 6 (Some "test.png").

Definition tokenChainZero : Token :=
  mkToken "0x123" (Some 0%Z) "Test" "TEST" 18 (Some "test.png").

(** A token is added to a file. *)
Definition additionRecord : TokenChange :=
  mkChange "chains/1.json" modified
    (Some [tokenTest]) (Some [tokenTest; tokenNew]).

(** The name of a token changes. *)
Definition metadataRecord : TokenChange :=
  mkChange "chains/137.json" modified
    (Some [tokenTest]) (Some [tokenTestUpdated]).

Definition deletedRecord : TokenChange :=
  mkChange "chains/10.json" deleted None None.

Definition reorderedRecord : TokenChange :=
  mkChange "chains/1.json" modified
    (Some [tokenTest; tokenOld]) (Some [tokenOld; tokenTest]).

End Examples.

(** A file in which the token of chainId 0 is dropped and the token with no
    chainId, at the same address, is kept. *)
Definition chainZeroRemoved : list TokenChange :=
  [mkChange "chains/0.json" modified
     (Some [Examples.tokenChainZero; Examples.tokenTest])
     (Some [Examples.tokenTest])].

(** The place of a verdict in the order major > minor > patch > none. *)
Definition priority (v : Verdict) : nat :=
  match v with
  | Some Major => 3
  | Some Minor => 2
  | Some Patch => 1
  | None => 0
  end.

(** The string holds no ["-"], the character that separates the address
    from the chainId in a key. *)
Fixpoint noDash (s : string) : bool :=
  match s with
  | EmptyString => true
  | String ch rest => negb (Ascii.eqb ch "-"%char) && noDash rest
  end.

(** * The rest of the build script *)

(** The string does not hold the character. *)
Fixpoint lacks (ch : ascii) (s : string) : bool :=
  match s with
  | EmptyString => true
  | String ch' rest => negb (Ascii.eqb ch' ch) && lacks ch rest
  end.

(** ** The command line *)

(** [process.argv.includes("--increment-version")] *)
Definition shouldIncrementVersion (argv : list string) : bool :=
  existsb (String.eqb "--increment-version") argv.

(** [process.argv.find((arg) => arg.startsWith("--git-changes="))] *)
Definition gitChangesArg (argv : list string) : option string :=
  find (String.prefix "--git-changes=") argv.

(** [s.split(sep)] for a separator of one character. *)
Fixpoint jsSplit (sep : ascii) (s : string) : list string :=
  match s with
  | EmptyString => [EmptyString]
  | String ch rest =>
      if Ascii.eqb ch sep then EmptyString :: jsSplit sep rest
      else match jsSplit sep rest with
           | piece :: pieces => String ch piece :: pieces
           | [] => [String ch EmptyString]
           end
  end.

(** [gitChangesArg ? gitChangesArg.split("=")[1] : null]; [None] stands for
    [null] and [undefined]. *)
Definition gitChanges (argv : list string) : option string :=
  match gitChangesArg argv with
  | Some arg =>
      if String.eqb arg "" then None else nth_error (jsSplit "=" arg) 1
  | None => None
  end.

(** [x || ""] for an optional string. *)
Definition orEmptyString (o : option string) : string :=
  match o with Some s => s | None => "" end.

Section VersionStep.

Variable Other : Type.

(** [JSON.parse(Buffer.from(s, "base64").toString("utf-8"))] on the text
    of an array of records: the records, or [None] when it throws. JSON
    that is no array is not part of this model: the loop over [changes]
    throws a [TypeError] on it. *)
Variable decodeChanges : string -> option (list TokenChange).

Definition parseGitChanges (gitChangesString : string) : list TokenChange :=
  if String.eqb gitChangesString "" then []
  else match decodeChanges gitChangesString with
       | Some changes => changes
       | None => []
       end.

(** The version step of the script, from the command line on. *)
Definition versionStep (argv : list string) (currentTimestamp : string)
    (st : Store Other) : Template Other * Store Other :=
  incrementVersion (shouldIncrementVersion argv)
    (parseGitChanges (orEmptyString (gitChanges argv)))
    currentTimestamp st.

End VersionStep.

(** The order of versions: by major, then minor, then patch. *)
Definition versionLt (v w : Version) : Prop :=
  (major v < major w)%Z \/
  (major v = major w /\
   ((minor v < minor w)%Z \/ (minor v = minor w /\ (patch v < patch w)%Z))).

(** ** File names *)

(** The class [\d]. *)
Definition isDigit (ch : ascii) : bool :=
  Nat.leb 48 (nat_of_ascii ch) && Nat.leb (nat_of_ascii ch) 57.

Fixpoint allDigits (s : string) : bool :=
  match s with
  | String ch rest => isDigit ch && allDigits rest
  | EmptyString => true
  end.

(** What a greedy [\d*] consumes, and what it leaves. *)
Fixpoint takeDigits (s : string) : string :=
  match s with
  | String ch rest =>
      if isDigit ch then String ch (takeDigits rest) else EmptyString
  | EmptyString => EmptyString
  end.

Fixpoint dropDigits (s : string) : string :=
  match s with
  | String ch rest => if isDigit ch then dropDigits rest else s
  | EmptyString => EmptyString
  end.

(** [s] without the prefix [p], when it starts with it. *)
Fixpoint stripPrefix (p s : string) : option string :=
  match p with
  | EmptyString => Some s
  | String ch p' =>
      match s with
      | String ch' s' => if Ascii.eqb ch ch' then stripPrefix p' s' else None
      | EmptyString => None
      end
  end.

(** [/\d+\.json/] matched at the start of [s]: the dot that follows the
    digits is no digit, so only the longest run of digits can match. *)
Definition digitsJsonHere (s : string) : bool :=
  match s with
  | String ch rest => isDigit ch && String.prefix ".json" (dropDigits rest)
  | EmptyString => false
  end.

(** [f.match(/\d+\.json/)] is not [null]. *)
Fixpoint matchFileName (f : string) : bool :=
  match f with
  | EmptyString => false
  | String _ rest => digitsJsonHere f || matchFileName rest
  end.

(** [/chains\/(\d+)\.json$/] matched at the start of [s]: the group. *)
Definition chainDigitsHere (s : string) : option string :=
  match stripPrefix "chains/" s with
  | Some rest =>
      if negb (String.eqb (takeDigits rest) "")
         && String.eqb (dropDigits rest) ".json"
      then Some (takeDigits rest)
      else None
  | None => None
  end.

(** [f.match(/chains\/(\d+)\.json$/)]: the group of the leftmost match, or
    [None] for [null]. *)
Fixpoint matchChainFile (f : string) : option string :=
  match chainDigitsHere f with
  | Some digits => Some digits
  | None =>
      match f with
      | String _ rest => matchChainFile rest
      | EmptyString => None
      end
  end.

(** The integer that a string of digits writes. *)
Fixpoint parseDigits (acc : Z) (digits : string) : Z :=
  match digits with
  | String ch rest =>
      parseDigits (10 * acc + Z.of_nat (nat_of_ascii ch - 48)) rest
  | EmptyString => acc
  end.

(** [parseInt(digits, 10)] on a non-empty string of digits: the Number
    nearest to the integer written. What an engine may drop after the 20th
    digit is left out, and so is the overflow to [Infinity]. *)
Definition parseInt (digits : string) : Z :=
  roundToDouble (parseDigits 0 digits).

(** [parseInt(f.match(/chains\/(\d+)\.json$/)[1], 10)]; [None] when the
    match is [null] and reading its group throws a [TypeError]. *)
Definition chainIdOfFile (f : string) : option Z :=
  option_map parseInt (matchChainFile f).

(** ** The steps of the build *)

(** How a step ends: it goes on with a value, the script calls
    [process.exit], or a [TypeError] is thrown. *)
Inductive Outcome (A : Type) : Type :=
| Done (value : A)
| Exit (code : Z) (stderr : string)
| TypeError.

Arguments Done {A} _.
Arguments Exit {A} _ _.
Arguments TypeError {A}.

Definition andThen {A B : Type} (o : Outcome A) (k : A -> Outcome B)
    : Outcome B :=
  match o with
  | Done a => k a
  | Exit code stderr => Exit code stderr
  | TypeError => TypeError
  end.

Definition EX_DATAERR : Z := 65.

(** The first loop over [files]. *)
Fixpoint checkFileNames (files : list string) : Outcome unit :=
  match files with
  | [] => Done tt
  | f :: rest =>
      if negb (matchFileName f)
      then Exit EX_DATAERR ("Invalid token filename - " ++ f)
      else checkFileNames rest
  end.

(** The comparison function given to [sort], on the two chain ids. *)
Definition compareChains (n1 n2 : Z) : Z :=
  if (n1 >? n2)%Z then 1%Z
  else if (n1 <? n2)%Z then (-1)%Z
  else 0%Z.

(** The files with their chain ids; [None] when some name has none. With
    two files or more [sort] compares every name with another, and with one
    file the loop over [sorted] asks for its chain id first, so a name
    without a chain id ends the script in a [TypeError] in all cases. *)
Fixpoint keyedFiles (files : list string) : option (list (Z * string)) :=
  match files with
  | [] => Some []
  | f :: rest =>
      match chainIdOfFile f, keyedFiles rest with
      | Some n, Some keyed => Some ((n, f) :: keyed)
      | _, _ => None
      end
  end.

(** [files.sort(...)]: the sort is stable, so a file goes before the files
    that followed it and do not compare lower. *)
Fixpoint insertFile (x : Z * string) (sorted : list (Z * string))
    : list (Z * string) :=
  match sorted with
  | [] => [x]
  | y :: rest =>
      if (compareChains (fst x) (fst y) <=? 0)%Z then x :: y :: rest
      else y :: insertFile x rest
  end.

Definition sortFiles (keyed : list (Z * string)) : list (Z * string) :=
  fold_right insertFile [] keyed.

(** A token as a file of [chains/] holds it: the address may be missing. *)
Record FileToken : Type := mkFileToken {
  rawAddress  : option string;
  rawChainId  : option Z;
  rawName     : string;
  rawSymbol   : string;
  rawDecimals : Z;
  rawLogoURI  : option string
}.

(** [{ ...token, chainId }] for a token that has the address [addr]. *)
Definition withChainId (token : FileToken) (addr : string) (chainId : Z)
    : Token :=
  mkToken addr (Some chainId) (rawName token) (rawSymbol token)
    (rawDecimals token) (rawLogoURI token).

(** The loop over the tokens of one file. *)
Fixpoint collectFile (f : string) (chainId : Z) (parsed : list FileToken)
    : Outcome (list Token) :=
  match parsed with
  | [] => Done []
  | token :: rest =>
      match rawAddress token with
      | None =>
          Exit EX_DATAERR
            ("Invalid token in file, no address - " ++ f ++
             " - [object Object]")
      | Some addr =>
          andThen (collectFile f chainId rest)
            (fun tokens => Done (withChainId token addr chainId :: tokens))
      end
  end.

Definition githubRaw : string :=
  "https://github.com/tallycash/token-list/raw/main".

(** [logoURI.replace(/^\.\./, githubRaw)] *)
Definition replaceLeadingDots (logoURI : string) : string :=
  match stripPrefix ".." logoURI with
  | Some rest => githubRaw ++ rest
  | None => logoURI
  end.

(** [token.logoURI ? token.logoURI.replace(...) : undefined]: the empty
    string is falsy. *)
Definition githubLogoURI (logoURI : option string) : option string :=
  match logoURI with
  | Some uri =>
      if String.eqb uri "" then None else Some (replaceLeadingDots uri)
  | None => None
  end.

(** [{ ...token, logoURI: ... }] of the branch without Fleek credentials. *)
Definition withGithubLogo (token : Token) : Token :=
  mkToken (address token) (chainId token) (name token) (symbol token)
    (decimals token) (githubLogoURI (logoURI token)).

Section Build.

(** [JSON.parse] of the content of a file that holds an array of objects:
    its tokens, or [None] when [JSON.parse] throws. Other JSON is not part
    of this model: on a value that is no array the loop over [parsed]
    throws a [TypeError], and so does ["address" in token] on an element
    that is no object. *)
Variable readTokens : string -> option (list FileToken).

(** The loop over [sorted]. *)
Fixpoint collectTokens (sorted : list (Z * string)) : Outcome (list Token) :=
  match sorted with
  | [] => Done []
  | (chainId, f) :: rest =>
      match readTokens f with
      | None => Exit EX_DATAERR ("Invalid token file - " ++ f)
      | Some parsed =>
          andThen (collectFile f chainId parsed) (fun tokens =>
          andThen (collectTokens rest) (fun tokens' =>
          Done (tokens ++ tokens')))
      end
  end.

(** The tokens of the built list, from the names [glob] gives, without
    Fleek credentials. *)
Definition buildTokens (files : list string) : Outcome (list Token) :=
  andThen (checkFileNames files) (fun _ =>
  match keyedFiles files with
  | None => TypeError
  | Some keyed =>
      andThen (collectTokens (sortFiles keyed)) (fun tokens =>
      Done (map withGithubLogo tokens))
  end).

End Build.

(** The chain id of a name that has one. *)
Definition chainOrZero (f : string) : Z :=
  match chainIdOfFile f with Some n => n | None => 0%Z end.

(** ["address" in token] *)
Definition hasAddress (token : FileToken) : bool :=
  match rawAddress token with Some _ => true | None => false end.

Section BuildVocabulary.

Variable readTokens : string -> option (list FileToken).

(** The file parses and each of its tokens has an address. *)
Definition validFile (f : string) : bool :=
  match readTokens f with
  | Some parsed => forallb hasAddress parsed
  | None => false
  end.

(** The tokens a valid file gives, with its chain id. *)
Definition tokensOfFile (kf : Z * string) : list Token :=
  match readTokens (snd kf) with
  | Some parsed =>
      map (fun token =>
             withChainId token (orEmptyString (rawAddress token)) (fst kf))
          parsed
  | None => []
  end.

End BuildVocabulary.

(** * The classifier with the operations that can throw

    The two places of [determineVersionIncrement] where a [TypeError] could
    be thrown on a change list, written out with the guards of the source:
    calling [map] on a sequence that is [undefined], and reading a property
    of a token that [afterMap.get] did not find. *)

(** [array.map(f)]: reading [map] of [undefined] throws. *)
Definition arrayMap {A B : Type} (array : option (list A)) (f : A -> B)
    : Outcome (list B) :=
  match array with
  | Some l => Done (map f l)
  | None => TypeError
  end.

(** [x || []] as a value that may be [undefined]. *)
Definition orEmptyArray {A : Type} (o : option (list A))
    : option (list A) :=
  match o with
  | Some l => Some l
  | None => Some []
  end.

(** [token[field]] for a token that may be [undefined]: reading a property
    of [undefined] throws. *)
Definition readField (field : string) (token : option Token)
    : Outcome JsValue :=
  match token with
  | Some t => Done (getField field t)
  | None => TypeError
  end.

(** The truth value of what [afterMap.get(key)] returns. *)
Definition truthyToken (token : option Token) : bool :=
  match token with Some _ => true | None => false end.

Fixpoint checkFieldsOutcome (fields : list string) (beforeToken : Token)
    (afterToken : option Token) (hasPatch : bool) : Outcome bool :=
  match fields with
  | [] => Done hasPatch
  | field :: fields' =>
      andThen (readField field afterToken) (fun afterValue =>
      if negb (strictEq (getField field beforeToken) afterValue)
      then Done true (* break *)
      else checkFieldsOutcome fields' beforeToken afterToken hasPatch)
  end.

Fixpoint checkModifiedOutcome (beforeEntries : list (string * Token))
    (afterMap : JsMap.t Token) (hasMajor hasPatch : bool)
    : Outcome (bool * bool) :=
  match beforeEntries with
  | [] => Done (hasMajor, hasPatch)
  | (key, beforeToken) :: rest =>
      let afterToken := JsMap.get key afterMap in
      if truthyToken afterToken then
        andThen (readField "address" afterToken) (fun afterAddress =>
        andThen (readField "chainId" afterToken) (fun afterChainId =>
        if negb (strictEq (JsString (address beforeToken)) afterAddress)
           || negb (strictEq (ofOptNumber (chainId beforeToken))
                             afterChainId)
        then Done (true, hasPatch) (* break *)
        else
          andThen (checkFieldsOutcome fieldsToCheck beforeToken afterToken
                     hasPatch) (fun hasPatch' =>
          checkModifiedOutcome rest afterMap hasMajor hasPatch')))
      else checkModifiedOutcome rest afterMap hasMajor hasPatch
  end.

Definition analyzeModifiedOutcome (change : TokenChange) (fl : Flags)
    : Outcome Flags :=
  let before := orEmptyArray (before change) in
  let after := orEmptyArray (after change) in
  andThen (arrayMap before (fun token => (tokenKey token, token)))
    (fun beforeEntries =>
  andThen (arrayMap after (fun token => (tokenKey token, token)))
    (fun afterEntries =>
  let beforeMap := JsMap.ofEntries beforeEntries in
  let afterMap := JsMap.ofEntries afterEntries in
  let major1 :=
    checkRemoved (JsMap.keys beforeMap) afterMap (hasMajorChange fl) in
  let minor1 :=
    checkAdded (JsMap.keys afterMap) beforeMap (hasMinorChange fl) in
  andThen (checkModifiedOutcome beforeMap afterMap major1
             (hasPatchChange fl)) (fun result =>
  Done (mkFlags (fst result) minor1 (snd result))))).

Definition analyzeChangeOutcome (fl : Flags) (change : TokenChange)
    : Outcome Flags :=
  match type change with
  | deleted => Done (mkFlags true (hasMinorChange fl) (hasPatchChange fl))
  | added => Done (mkFlags (hasMajorChange fl) true (hasPatchChange fl))
  | modified => analyzeModifiedOutcome change fl
  end.

Fixpoint analyzeChangesOutcome (changes : list TokenChange) (fl : Flags)
    : Outcome Flags :=
  match changes with
  | [] => Done fl
  | change :: rest =>
      andThen (analyzeChangeOutcome fl change) (analyzeChangesOutcome rest)
  end.

(** [determineVersionIncrement] of the build script, with what it throws. *)
Definition determineVersionIncrementOutcome (changes : list TokenChange)
    : Outcome Verdict :=
  andThen (analyzeChangesOutcome changes noFlags)
    (fun fl => Done (resolveIncrement fl)).

(** * The test file *)

Record TestCase : Type := mkTestCase {
  testName    : string;
  testChanges : list TokenChange;
  expected    : Verdict
}.

(** [result === test.expected] *)
Definition sameVerdict (v w : Verdict) : bool :=
  match v, w with
  | Some Major, Some Major => true
  | Some Minor, Some Minor => true
  | Some Patch, Some Patch => true
  | None, None => true
  | _, _ => false
  end.

(** The loop over [testCases], from the counters [passed] and [failed]. *)
Fixpoint runTests (classifier : list TokenChange -> Verdict)
    (cases : list TestCase) (passed failed : nat) : nat * nat :=
  match cases with
  | [] => (passed, failed)
  | test :: rest =>
      if sameVerdict (classifier (testChanges test)) (expected test)
      then runTests classifier rest (S passed) failed
      else runTests classifier rest passed (S failed)
  end.

(** The exit code the test file ends with. *)
Definition testExitCode (classifier : list TokenChange -> Verdict)
    (cases : list TestCase) : Z :=
  if Nat.ltb 0 (snd (runTests classifier cases 0 0)) then 1%Z else 0%Z.

Definition testCases : list TestCase :=
  [
  mkTestCase "Token removal (major)"
    [mkChange "chains/1.json" modified
       (Some
       [mkToken "0x123" None "Test" "TEST" 18 (Some "test.png");
        mkToken "0x456" None "Old Token" "OLD" 18 (Some "old.png")])
       (Some
       [mkToken "0x123" None "Test" "TEST" 18 (Some "test.png")])]
    (Some Major);
  mkTestCase "Address change (major - treated as remove + add)"
    [mkChange "chains/1.json" modified
       (Some
       [mkToken "0x123" None "Test" "TEST" 18 (Some "test.png")])
       (Some
       [mkToken "0x456" None "Test" "TEST" 18 (Some "test.png")])]
    (Some Major);
  mkTestCase "ChainId change (major - treated as remove + add)"
    [mkChange "chains/1.json" modified
       (Some
       [mkToken "0x123" (Some 1%Z) "Test" "TEST" 18 (Some "test.png")])
       (Some
       [mkToken "0x123" (Some 137%Z) "Test" "TEST" 18 (Some "test.png")])]
    (Some Major);
  mkTestCase "Deleted chain file (major)"
    [mkChange "chains/999.json" deleted
       (Some
       [mkToken "0x123" None "Test" "TEST" 18 (Some "test.png")])
       None]
    (Some Major);
  mkTestCase "Token addition (minor)"
    [mkChange "chains/1.json" modified
       (Some
       [mkToken "0x123" None "Test" "TEST" 18 (Some "test.png")])
       (Some
       [mkToken "0x123" None "Test" "TEST" 18 (Some "test.png");
        mkToken "0x456" None "New Token" "NEW" 18 (Some "new.png")])]
    (Some Minor);
  mkTestCase "New chain file (minor)"
    [mkChange "chains/999.json" added
       None
       (Some
       [mkToken "0x123" None "Test" "TEST" 18 (Some "test.png")])]
    (Some Minor);
  mkTestCase "Name change (patch)"
    [mkChange "chains/1.json" modified
       (Some
       [mkToken "0x123" None "Test" "TEST" 18 (Some "test.png")])
       (Some
       [mkToken "0x123" None "Test Updated" "TEST" 18 (Some "test.png")])]
    (Some Patch);
  mkTestCase "Symbol change (patch)"
    [mkChange "chains/1.json" modified
       (Some
       [mkToken "0x123" None "Test" "TEST" 18 (Some "test.png")])
       (Some
       [mkToken "0x123" None "Test" "TST" 18 (Some "test.png")])]
    (Some Patch);
  mkTestCase "Logo URI change (patch)"
    [mkChange "chains/1.json" modified
       (Some
       [mkToken "0x123" None "Test" "TEST" 18 (Some "old.png")])
       (Some
       [mkToken "0x123" None "Test" "TEST" 18 (Some "new.png")])]
    (Some Patch);
  mkTestCase "Decimals change (patch)"
    [mkChange "chains/1.json" modified
       (Some
       [mkToken "0x123" None "Test" "TEST" 18 (Some "test.png")])
       (Some
       [mkToken "0x123" None "Test" "TEST" 6 (Some "test.png")])]
    (Some Patch);
  mkTestCase "JSON reordering (no increment)"
    [mkChange "chains/1.json" modified
       (Some
       [mkToken "0x123" None "First Token" "FIRST" 18 (Some "first.png");
        mkToken "0x456" None "Second Token" "SECOND" 6 (Some "second.png");
        mkToken "0x789" None "Third Token" "THIRD" 18 (Some "third.png")])
       (Some
       [mkToken "0x456" None "Second Token" "SECOND" 6 (Some "second.png");
        mkToken "0x789" None "Third Token" "THIRD" 18 (Some "third.png");
        mkToken "0x123" None "First Token" "FIRST" 18 (Some "first.png")])]
    None;
  mkTestCase "No changes (no increment)"
    [mkChange "chains/1.json" modified
       (Some
       [mkToken "0x123" None "Test" "TEST" 18 (Some "test.png")])
       (Some
       [mkToken "0x123" None "Test" "TEST" 18 (Some "test.png")])]
    None;
  mkTestCase "Mixed changes - removal + addition (major wins)"
    [mkChange "chains/1.json" modified
       (Some
       [mkToken "0x123" None "Test" "TEST" 18 (Some "test.png");
        mkToken "0x456" None "Old Token" "OLD" 18 (Some "old.png")])
       (Some
       [mkToken "0x123" None "Test Updated" "TEST" 18 (Some "test.png");
        mkToken "0x789" None "New Token" "NEW" 18 (Some "new.png")])]
    (Some Major);
  mkTestCase "Mixed changes - addition + patch (minor wins)"
    [mkChange "chains/1.json" modified
       (Some
       [mkToken "0x123" None "Test" "TEST" 18 (Some "test.png")])
       (Some
       [mkToken "0x123" None "Test Updated" "TEST" 18 (Some "test.png");
        mkToken "0x456" None "New Token" "NEW" 18 (Some "new.png")])]
    (Some Minor)
  ].

(** * Lemmas *)

(** ** Facts about the map *)

Module JsMapFacts.
Import JsMap.

Section Facts.
Context {V : Type}.
Implicit Types (m : t V) (k : string) (v : V).

Lemma get_set k k' v m :
  get k (set k' v m) = if String.eqb k' k then Some v else get k m.
Proof.
  induction m as [|[k0 v0] m IH]; simpl; [reflexivity|].
  destruct (String.eqb k0 k') eqn:E0; simpl.
  - apply String.eqb_eq in E0; subst k0.
    destruct (String.eqb k' k); reflexivity.
  - rewrite IH. destruct (String.eqb k0 k) eqn:E1; [|reflexivity].
    apply String.eqb_eq in E1; subst k0.
    rewrite String.eqb_sym, E0. reflexivity.
Qed.

Lemma get_app k m1 m2 :
  get k (m1 ++ m2) =
  match get k m1 with Some v => Some v | None => get k m2 end.
Proof.
  induction m1 as [|[k0 v0] m1 IH]; simpl; [reflexivity|].
  destruct (String.eqb k0 k); [reflexivity|exact IH].
Qed.

Lemma get_fold_set k (es : list (string * V)) m :
  get k (fold_left (fun m e => set (fst e) (snd e) m) es m) =
  match get k (rev es) with Some v => Some v | None => get k m end.
Proof.
  revert m. induction es as [|[k0 v0] es IH]; intros m; simpl.
  - reflexivity.
  - rewrite IH, get_app, get_set. simpl.
    destruct (get k (rev es)); [reflexivity|].
    destruct (String.eqb k0 k); reflexivity.
Qed.

(** Last write wins: a key of [new Map(entries)] holds the value of the
    last entry with that key. *)
Lemma get_ofEntries k (es : list (string * V)) :
  get k (ofEntries es) = get k (rev es).
Proof.
  unfold ofEntries. rewrite get_fold_set.
  destruct (get k (rev es)); reflexivity.
Qed.

Lemma get_None k m : get k m = None <-> ~ In k (keys m).
Proof.
  induction m as [|[k0 v0] m IH]; simpl.
  - tauto.
  - destruct (String.eqb k0 k) eqn:E.
    + apply String.eqb_eq in E. split; [discriminate|tauto].
    + apply String.eqb_neq in E. tauto.
Qed.

Lemma has_true k m : has k m = true <-> In k (keys m).
Proof.
  unfold has. destruct (get k m) eqn:E.
  - split; [intros _|reflexivity].
    destruct (in_dec string_dec k (keys m)) as [H|H]; [exact H|].
    apply get_None in H. congruence.
  - apply get_None in E. split; [discriminate|tauto].
Qed.

Lemma has_false k m : has k m = false <-> get k m = None.
Proof. unfold has. destruct (get k m); split; congruence. Qed.

Lemma get_In k v m : get k m = Some v -> In (k, v) m.
Proof.
  induction m as [|[k0 v0] m IH]; simpl; [discriminate|].
  destruct (String.eqb k0 k) eqn:E.
  - apply String.eqb_eq in E. intros [= <-]. left. congruence.
  - auto.
Qed.

Lemma In_get k v m : NoDup (keys m) -> In (k, v) m -> get k m = Some v.
Proof.
  induction m as [|[k0 v0] m IH]; simpl; [tauto|].
  intros Hnd [[= -> ->]|Hin].
  - rewrite String.eqb_refl. reflexivity.
  - inversion Hnd as [|? ? Hk0 Hnd']; subst.
    destruct (String.eqb k0 k) eqn:E; [|auto].
    apply String.eqb_eq in E; subst k0. exfalso. apply Hk0.
    change k with (fst (k, v)). apply in_map. exact Hin.
Qed.

Lemma keys_set k v m :
  keys (set k v m) = if has k m then keys m else keys m ++ [k].
Proof.
  unfold has. induction m as [|[k0 v0] m IH]; simpl; [reflexivity|].
  destruct (String.eqb k0 k) eqn:E; simpl; [reflexivity|].
  fold (keys (set k v m)). rewrite IH.
  destruct (get k m); reflexivity.
Qed.

(** One entry per key. *)
Lemma NoDup_keys_ofEntries (es : list (string * V)) :
  NoDup (keys (ofEntries es)).
Proof.
  unfold ofEntries.
  assert (H : NoDup (keys (@empty V))) by constructor.
  revert H. generalize (@empty V).
  induction es as [|[k0 v0] es IH]; intros m Hm; simpl; [exact Hm|].
  apply IH. rewrite keys_set.
  destruct (has k0 m) eqn:E; [exact Hm|].
  apply has_false, get_None in E.
  apply (Permutation_NoDup (l := k0 :: keys m)).
  - apply Permutation_cons_append.
  - constructor; assumption.
Qed.

(** The entries a loop over the map visits are its key/value bindings. *)
Lemma In_ofEntries k v (es : list (string * V)) :
  In (k, v) (ofEntries es) <-> get k (ofEntries es) = Some v.
Proof.
  split.
  - apply In_get, NoDup_keys_ofEntries.
  - apply get_In.
Qed.

End Facts.
End JsMapFacts.

(** ** The loops of the [modified] branch as searches *)

Lemma optZ_strictEq (x y : option Z) :
  strictEq (ofOptNumber x) (ofOptNumber y) = true <-> x = y.
Proof.
  destruct x as [x|], y as [y|]; simpl;
    try (split; congruence).
  rewrite Z.eqb_eq. split; congruence.
Qed.

Lemma optString_strictEq (x y : option string) :
  strictEq (ofOptString x) (ofOptString y) = true <-> x = y.
Proof.
  destruct x as [x|], y as [y|]; simpl;
    try (split; congruence).
  rewrite String.eqb_eq. split; congruence.
Qed.

Lemma idDiffers_false b a :
  idDiffers b a = false <-> address b = address a /\ chainId b = chainId a.
Proof.
  unfold idDiffers. rewrite orb_false_iff, !negb_false_iff, optZ_strictEq.
  simpl. rewrite String.eqb_eq. tauto.
Qed.

Lemma detailsDiffer_false b a :
  detailsDiffer b a = false <->
  name b = name a /\ symbol b = symbol a /\ logoURI b = logoURI a /\
  decimals b = decimals a.
Proof.
  unfold detailsDiffer, fieldsToCheck. cbn.
  rewrite <- (optString_strictEq (logoURI b)).
  rewrite <- (String.eqb_eq (name b)), <- (String.eqb_eq (symbol b)).
  rewrite <- (Z.eqb_eq (decimals b)).
  destruct (String.eqb (name b) (name a)),
           (String.eqb (symbol b) (symbol a)),
           (strictEq (ofOptString (logoURI b)) (ofOptString (logoURI a))),
           (Z.eqb (decimals b) (decimals a)); simpl; intuition congruence.
Qed.

Lemma checkFields_acc fields b a p :
  checkFields fields b a p = p || checkFields fields b a false.
Proof.
  induction fields as [|f fields IH]; simpl.
  - rewrite orb_false_r. reflexivity.
  - destruct (negb _); [rewrite orb_true_r; reflexivity|exact IH].
Qed.

Lemma checkRemoved_existsb ks am b :
  checkRemoved ks am b = b || existsb (fun k => negb (JsMap.has k am)) ks.
Proof.
  induction ks as [|k ks IH]; simpl.
  - rewrite orb_false_r. reflexivity.
  - destruct (negb (JsMap.has k am)); simpl;
      [rewrite orb_true_r; reflexivity|exact IH].
Qed.

Lemma checkAdded_existsb ks bm b :
  checkAdded ks bm b = b || existsb (fun k => negb (JsMap.has k bm)) ks.
Proof.
  revert b. induction ks as [|k ks IH]; intros b; simpl.
  - rewrite orb_false_r. reflexivity.
  - rewrite IH. destruct (negb (JsMap.has k bm)); simpl;
      [rewrite orb_true_r; reflexivity|reflexivity].
Qed.

Lemma checkModified_major es am mj pt :
  fst (checkModified es am mj pt) = mj || existsb (entryIdDiffers am) es.
Proof.
  revert pt. induction es as [|[k b] es IH]; intros pt;
    cbn [checkModified existsb fst].
  - rewrite orb_false_r. reflexivity.
  - unfold entryIdDiffers at 1. cbn [fst snd].
    destruct (JsMap.get k am) as [a|]; [|apply IH].
    fold (idDiffers b a). destruct (idDiffers b a); cbn [fst orb].
    + rewrite orb_true_r. reflexivity.
    + apply IH.
Qed.

Lemma checkModified_patch es am mj pt :
  existsb (entryIdDiffers am) es = false ->
  snd (checkModified es am mj pt) =
  pt || existsb (entryDetailsDiffer am) es.
Proof.
  revert pt. induction es as [|[k b] es IH]; intros pt;
    cbn [checkModified existsb snd].
  - rewrite orb_false_r. reflexivity.
  - unfold entryIdDiffers at 1, entryDetailsDiffer at 1. cbn [fst snd].
    destruct (JsMap.get k am) as [a|]; [|apply IH].
    fold (idDiffers b a). intros [Hid Hes]%orb_false_iff.
    rewrite Hid. rewrite (IH _ Hes), checkFields_acc.
    fold (detailsDiffer b a). rewrite orb_assoc. reflexivity.
Qed.

(** The flags only accumulate: what a loop adds does not depend on the
    values the flags have when it starts. *)
Lemma checkModified_acc es am mj pt :
  checkModified es am mj pt =
  (mj || fst (checkModified es am false false),
   pt || snd (checkModified es am false false)).
Proof.
  revert mj pt. induction es as [|[k b] es IH]; intros mj pt;
    cbn [checkModified fst snd].
  - rewrite !orb_false_r. reflexivity.
  - destruct (JsMap.get k am) as [a|]; [|apply IH].
    fold (idDiffers b a). destruct (idDiffers b a); cbn [fst snd].
    + rewrite orb_true_r, orb_false_r. reflexivity.
    + rewrite (IH mj (checkFields fieldsToCheck b a pt)).
      rewrite (IH false (checkFields fieldsToCheck b a false)). cbn [fst snd].
      rewrite (checkFields_acc _ _ _ pt), orb_false_l, orb_assoc.
      reflexivity.
Qed.

(** ** Aggregation of the flags across records *)

Lemma highest_comm v w : highest v w = highest w v.
Proof. destruct v as [[]|], w as [[]|]; reflexivity. Qed.

Lemma highest_assoc u v w :
  highest u (highest v w) = highest (highest u v) w.
Proof. destruct u as [[]|], v as [[]|], w as [[]|]; reflexivity. Qed.

Lemma highest_None_r v : highest v None = v.
Proof. destruct v as [[]|]; reflexivity. Qed.

Lemma highest_Major_l v : highest (Some Major) v = Some Major.
Proof. destruct v as [[]|]; reflexivity. Qed.

Lemma orFlags_assoc f g h :
  orFlags (orFlags f g) h = orFlags f (orFlags g h).
Proof. unfold orFlags; simpl. rewrite !orb_assoc. reflexivity. Qed.

Lemma resolveIncrement_orFlags f g :
  resolveIncrement (orFlags f g) =
  highest (resolveIncrement f) (resolveIncrement g).
Proof.
  destruct f as [[] [] []], g as [[] [] []]; reflexivity.
Qed.

Section Aggregation.

Variable keyOf : Token -> string.

Lemma analyzeChange_orFlags fl c :
  analyzeChange keyOf fl c = orFlags fl (recordFlags keyOf c).
Proof.
  unfold recordFlags, analyzeChange, analyzeModified, orFlags.
  destruct fl as [mj mn pt]. destruct (type c); cbn [hasMajorChange
    hasMinorChange hasPatchChange noFlags].
  - rewrite !orb_false_r, orb_true_r. reflexivity.
  - rewrite checkModified_acc.
    rewrite (checkModified_acc _ _ (checkRemoved _ _ false)).
    rewrite !checkRemoved_existsb, !checkAdded_existsb.
    cbn [hasMajorChange hasMinorChange hasPatchChange fst snd orb].
    rewrite !orb_assoc. reflexivity.
  - rewrite !orb_false_r, orb_true_r. reflexivity.
Qed.

Lemma analyzeChanges_from fl cs :
  fold_left (analyzeChange keyOf) cs fl =
  orFlags fl (analyzeChanges keyOf cs).
Proof.
  unfold analyzeChanges. revert fl.
  induction cs as [|c cs IH]; intros fl; cbn [fold_left].
  - destruct fl as [[] [] []]; reflexivity.
  - rewrite (IH (analyzeChange keyOf fl c)).
    rewrite (IH (analyzeChange keyOf noFlags c)).
    rewrite (analyzeChange_orFlags fl c), orFlags_assoc.
    reflexivity.
Qed.

(** The flags of a change list are the disjunction of the flags of its
    records. *)
Lemma analyzeChanges_orFlags cs :
  analyzeChanges keyOf cs =
  fold_left (fun fl c => orFlags fl (recordFlags keyOf c)) cs noFlags.
Proof.
  unfold analyzeChanges. generalize noFlags.
  induction cs as [|c cs IH]; intros fl; cbn [fold_left]; [reflexivity|].
  rewrite analyzeChange_orFlags. apply IH.
Qed.

Lemma classify_cons c cs :
  classify keyOf (c :: cs) =
  highest (classify keyOf [c]) (classify keyOf cs).
Proof.
  unfold classify at 1 2. unfold analyzeChanges at 1 2. cbn [fold_left].
  rewrite analyzeChanges_from. apply resolveIncrement_orFlags.
Qed.

Lemma classify_nil : classify keyOf [] = None.
Proof. reflexivity. Qed.

Lemma classify_app cs1 cs2 :
  classify keyOf (cs1 ++ cs2) =
  highest (classify keyOf cs1) (classify keyOf cs2).
Proof.
  induction cs1 as [|c cs1 IH]; cbn [app].
  - rewrite classify_nil. destruct (classify keyOf cs2) as [[]|]; reflexivity.
  - rewrite classify_cons, IH, (classify_cons c cs1), highest_assoc.
    reflexivity.
Qed.

(** The verdict of a list is the highest verdict of its records. *)
Lemma classify_highest cs :
  classify keyOf cs =
  fold_right highest None (map (fun c => classify keyOf [c]) cs).
Proof.
  induction cs as [|c cs IH]; [reflexivity|].
  rewrite classify_cons, IH. reflexivity.
Qed.

Lemma classify_Permutation cs cs' :
  Permutation cs cs' -> classify keyOf cs = classify keyOf cs'.
Proof.
  induction 1 as [|c cs cs' _ IH|c d cs|cs cs' cs'' _ IH1 _ IH2].
  - reflexivity.
  - rewrite (classify_cons c cs), (classify_cons c cs'), IH. reflexivity.
  - rewrite (classify_cons d (c :: cs)), (classify_cons c cs).
    rewrite (classify_cons c (d :: cs)), (classify_cons d cs).
    rewrite !highest_assoc, (highest_comm (classify keyOf [d])).
    reflexivity.
  - congruence.
Qed.

(** A record can be replaced by one that yields the same verdict alone. *)
Lemma classify_replace cs1 c c' cs2 :
  classify keyOf [c] = classify keyOf [c'] ->
  classify keyOf (cs1 ++ c :: cs2) = classify keyOf (cs1 ++ c' :: cs2).
Proof.
  intros H. rewrite !classify_app.
  rewrite (classify_cons c cs2), (classify_cons c' cs2), H.
  reflexivity.
Qed.

Lemma classify_deleted c : type c = deleted -> classify keyOf [c] = Some Major.
Proof.
  intros H. unfold classify, analyzeChanges. cbn [fold_left].
  unfold analyzeChange. rewrite H. reflexivity.
Qed.

Lemma classify_added c : type c = added -> classify keyOf [c] = Some Minor.
Proof.
  intros H. unfold classify, analyzeChanges. cbn [fold_left].
  unfold analyzeChange. rewrite H. reflexivity.
Qed.

End Aggregation.

(** ** What a [modified] record yields *)

Lemma Missing_ext f f' g g' :
  (forall k, f k = f' k) -> (forall k, g k = g' k) ->
  Missing f g <-> Missing f' g'.
Proof.
  intros Hf Hg. unfold Missing.
  split; intros (k & b & H1 & H2); exists k, b.
  - rewrite <- Hf, <- Hg. auto.
  - rewrite Hf, Hg. auto.
Qed.

Lemma Matched_ext differs f f' g g' :
  (forall k, f k = f' k) -> (forall k, g k = g' k) ->
  Matched differs f g <-> Matched differs f' g'.
Proof.
  intros Hf Hg. unfold Matched.
  split; intros (k & b & a & H1 & H2 & H3); exists k, b, a.
  - rewrite <- Hf, <- Hg. auto.
  - rewrite Hf, Hg. auto.
Qed.

Lemma existsb_missing (bm am : JsMap.t Token) :
  existsb (fun k => negb (JsMap.has k am)) (JsMap.keys bm) = true <->
  Missing (fun k => JsMap.get k bm) (fun k => JsMap.get k am).
Proof.
  rewrite existsb_exists. split.
  - intros (k & Hin & Hk).
    apply negb_true_iff, JsMapFacts.has_false in Hk.
    apply JsMapFacts.has_true in Hin. unfold JsMap.has in Hin.
    destruct (JsMap.get k bm) as [b|] eqn:E; [|discriminate].
    exists k, b. auto.
  - intros (k & b & Hb & Ha). exists k. split.
    + apply JsMapFacts.has_true. unfold JsMap.has. rewrite Hb. reflexivity.
    + apply negb_true_iff, JsMapFacts.has_false. exact Ha.
Qed.

Lemma existsb_matched (differs : Token -> Token -> bool)
    (bm am : JsMap.t Token) :
  NoDup (JsMap.keys bm) ->
  existsb (fun e => match JsMap.get (fst e) am with
                    | Some a => differs (snd e) a
                    | None => false
                    end) bm = true <->
  Matched differs (fun k => JsMap.get k bm) (fun k => JsMap.get k am).
Proof.
  intros Hnd. rewrite existsb_exists. split.
  - intros ([k b] & Hin & H). cbn [fst snd] in H.
    destruct (JsMap.get k am) as [a|] eqn:E; [|discriminate].
    exists k, b, a. split; [apply JsMapFacts.In_get; assumption|auto].
  - intros (k & b & a & Hb & Ha & HP). exists (k, b).
    split; [apply JsMapFacts.get_In; exact Hb|].
    cbn [fst snd]. rewrite Ha. exact HP.
Qed.

Section ModifiedRecord.

Variable keyOf : Token -> string.

(** The flags a [modified] record sets, read off the two maps. *)
Lemma recordFlags_modified c :
  type c = modified ->
  let fl := recordFlags keyOf c in
  let fb := beforeLookup keyOf c in
  let fa := afterLookup keyOf c in
  (hasMajorChange fl = true <-> Missing fb fa \/ Matched idDiffers fb fa) /\
  (hasMinorChange fl = true <-> Missing fa fb) /\
  (~ Matched idDiffers fb fa ->
   (hasPatchChange fl = true <-> Matched detailsDiffer fb fa)).
Proof.
  intros Hc. unfold recordFlags, analyzeChange. rewrite Hc.
  unfold analyzeModified, beforeLookup, afterLookup.
  set (bm := tokenMap keyOf (orEmpty (before c))).
  set (am := tokenMap keyOf (orEmpty (after c))).
  assert (Hnd : NoDup (JsMap.keys bm))
    by apply JsMapFacts.NoDup_keys_ofEntries.
  cbn [noFlags hasMajorChange hasMinorChange hasPatchChange].
  pose proof (checkModified_major bm am
                (checkRemoved (JsMap.keys bm) am false) false) as Hmj.
  pose proof (checkModified_patch bm am
                (checkRemoved (JsMap.keys bm) am false) false) as Hpt.
  destruct (checkModified bm am _ false) as [mj pt].
  cbn [fst snd hasMajorChange hasMinorChange hasPatchChange] in *.
  rewrite checkRemoved_existsb in Hmj. cbn [orb] in *.
  rewrite checkAdded_existsb. cbn [orb].
  pose proof (existsb_missing bm am) as Hrem.
  pose proof (existsb_missing am bm) as Hadd.
  pose proof (existsb_matched idDiffers bm am Hnd) as Hid.
  pose proof (existsb_matched detailsDiffer bm am Hnd) as Hdt.
  change (existsb _ bm) with (existsb (entryIdDiffers am) bm) in Hid.
  change (existsb _ bm) with (existsb (entryDetailsDiffer am) bm) in Hdt.
  split; [|split].
  - subst mj. rewrite orb_true_iff, Hrem, Hid. tauto.
  - exact Hadd.
  - intros Hno.
    assert (Hex : existsb (entryIdDiffers am) bm = false).
    { destruct (existsb (entryIdDiffers am) bm); [|reflexivity].
      exfalso. apply Hno, Hid. reflexivity. }
    rewrite (Hpt Hex). exact Hdt.
Qed.

End ModifiedRecord.

Lemma bool_eq_of_iff (x y : bool) : (x = true <-> y = true) -> x = y.
Proof. destruct x, y; intuition congruence. Qed.

Lemma idDiffers_refl t : idDiffers t t = false.
Proof. apply idDiffers_false. auto. Qed.

Lemma detailsDiffer_refl t : detailsDiffer t t = false.
Proof. apply detailsDiffer_false. auto. Qed.

Section ModifiedVerdict.

Variable keyOf : Token -> string.

Lemma classify_single c :
  classify keyOf [c] = resolveIncrement (recordFlags keyOf c).
Proof. reflexivity. Qed.

(** The verdict of a [modified] record depends on the two maps only
    through what [get] returns. *)
Lemma classify_modified_ext c c' :
  type c = modified -> type c' = modified ->
  (forall k, beforeLookup keyOf c k = beforeLookup keyOf c' k) ->
  (forall k, afterLookup keyOf c k = afterLookup keyOf c' k) ->
  classify keyOf [c] = classify keyOf [c'].
Proof.
  intros Hc Hc' Hb Ha. rewrite !classify_single.
  destruct (recordFlags_modified keyOf c Hc) as (M1 & N1 & P1).
  destruct (recordFlags_modified keyOf c' Hc') as (M2 & N2 & P2).
  pose proof (Missing_ext _ _ _ _ Hb Ha) as E1.
  pose proof (Missing_ext _ _ _ _ Ha Hb) as E2.
  pose proof (Matched_ext idDiffers _ _ _ _ Hb Ha) as E3.
  pose proof (Matched_ext detailsDiffer _ _ _ _ Hb Ha) as E4.
  assert (Hmj : hasMajorChange (recordFlags keyOf c) =
                hasMajorChange (recordFlags keyOf c'))
    by (apply bool_eq_of_iff; tauto).
  assert (Hmn : hasMinorChange (recordFlags keyOf c) =
                hasMinorChange (recordFlags keyOf c'))
    by (apply bool_eq_of_iff; tauto).
  unfold resolveIncrement. rewrite Hmj, Hmn.
  destruct (hasMajorChange (recordFlags keyOf c')) eqn:Emj; [reflexivity|].
  assert (Hno : ~ Matched idDiffers (beforeLookup keyOf c')
                  (afterLookup keyOf c')).
  { intros X. assert (false = true) by (apply M2; auto). discriminate. }
  assert (Hpt : hasPatchChange (recordFlags keyOf c) =
                hasPatchChange (recordFlags keyOf c')).
  { apply bool_eq_of_iff. specialize (P2 Hno).
    assert (Hno' : ~ Matched idDiffers (beforeLookup keyOf c)
                     (afterLookup keyOf c)) by tauto.
    specialize (P1 Hno'). tauto. }
  rewrite Hpt. reflexivity.
Qed.

Lemma classify_modified_same c :
  type c = modified ->
  (forall k, beforeLookup keyOf c k = afterLookup keyOf c k) ->
  classify keyOf [c] = None.
Proof.
  intros Hc Heq. rewrite classify_single.
  destruct (recordFlags_modified keyOf c Hc) as (M & N & P).
  assert (Hmiss : ~ Missing (beforeLookup keyOf c) (afterLookup keyOf c)).
  { intros (k & b & Hb & Ha). rewrite Heq in Hb. congruence. }
  assert (Hmiss' : ~ Missing (afterLookup keyOf c) (beforeLookup keyOf c)).
  { intros (k & b & Hb & Ha). rewrite Heq in Ha. congruence. }
  assert (Hid : ~ Matched idDiffers (beforeLookup keyOf c)
                  (afterLookup keyOf c)).
  { intros (k & b & a & Hb & Ha & Hd). rewrite Heq in Hb.
    assert (b = a) by congruence. subst a.
    rewrite idDiffers_refl in Hd. discriminate. }
  assert (Hdt : ~ Matched detailsDiffer (beforeLookup keyOf c)
                  (afterLookup keyOf c)).
  { intros (k & b & a & Hb & Ha & Hd). rewrite Heq in Hb.
    assert (b = a) by congruence. subst a.
    rewrite detailsDiffer_refl in Hd. discriminate. }
  specialize (P Hid). unfold resolveIncrement.
  destruct (hasMajorChange _); [exfalso; tauto|].
  destruct (hasMinorChange _); [exfalso; tauto|].
  destruct (hasPatchChange _); [exfalso; tauto|].
  reflexivity.
Qed.

Lemma classify_modified_Major c :
  type c = modified ->
  Missing (beforeLookup keyOf c) (afterLookup keyOf c) ->
  classify keyOf [c] = Some Major.
Proof.
  intros Hc Hm. rewrite classify_single.
  destruct (recordFlags_modified keyOf c Hc) as (M & _).
  unfold resolveIncrement.
  destruct (hasMajorChange _); [reflexivity|].
  assert (false = true) by (apply M; auto). discriminate.
Qed.

Lemma classify_modified_Patch c :
  type c = modified ->
  ~ Missing (beforeLookup keyOf c) (afterLookup keyOf c) ->
  ~ Missing (afterLookup keyOf c) (beforeLookup keyOf c) ->
  ~ Matched idDiffers (beforeLookup keyOf c) (afterLookup keyOf c) ->
  Matched detailsDiffer (beforeLookup keyOf c) (afterLookup keyOf c) ->
  classify keyOf [c] = Some Patch.
Proof.
  intros Hc H1 H2 H3 H4. rewrite classify_single.
  destruct (recordFlags_modified keyOf c Hc) as (M & N & P).
  specialize (P H3). unfold resolveIncrement.
  destruct (hasMajorChange _); [exfalso; tauto|].
  destruct (hasMinorChange _); [exfalso; tauto|].
  destruct (hasPatchChange _); [reflexivity|].
  assert (false = true) by (apply P; auto). discriminate.
Qed.

(** *** Last write wins *)

Lemma get_tokenMap k tokens :
  JsMap.get k (tokenMap keyOf tokens) = lastWithKey keyOf k tokens.
Proof.
  unfold tokenMap, lastWithKey.
  rewrite JsMapFacts.get_ofEntries, <- map_rev.
  induction (rev tokens) as [|t l IH]; simpl; [reflexivity|].
  destruct (String.eqb (keyOf t) k); [reflexivity|exact IH].
Qed.

Lemma find_app_key (f : Token -> bool) l1 l2 :
  find f (l1 ++ l2) =
  match find f l1 with Some t => Some t | None => find f l2 end.
Proof.
  induction l1 as [|t l1 IH]; simpl; [reflexivity|].
  destruct (f t); [reflexivity|exact IH].
Qed.

Lemma lastWithKey_app k l1 l2 :
  lastWithKey keyOf k (l1 ++ l2) =
  match lastWithKey keyOf k l2 with
  | Some t => Some t
  | None => lastWithKey keyOf k l1
  end.
Proof. unfold lastWithKey. rewrite rev_app_distr. apply find_app_key. Qed.

Lemma lastWithKey_cons k t l :
  lastWithKey keyOf k (t :: l) =
  match lastWithKey keyOf k l with
  | Some t' => Some t'
  | None => if String.eqb (keyOf t) k then Some t else None
  end.
Proof.
  change (t :: l) with ([t] ++ l). rewrite lastWithKey_app.
  reflexivity.
Qed.

Lemma lastWithKey_Some k t l :
  lastWithKey keyOf k l = Some t -> In t l /\ keyOf t = k.
Proof.
  unfold lastWithKey. intros H. apply find_some in H.
  destruct H as [Hin Hk]. split.
  - apply in_rev. exact Hin.
  - apply String.eqb_eq. exact Hk.
Qed.

Lemma lastWithKey_None k l :
  lastWithKey keyOf k l = None <-> ~ In k (map keyOf l).
Proof.
  induction l as [|t l IH]; [simpl; tauto|].
  rewrite lastWithKey_cons. simpl.
  destruct (lastWithKey keyOf k l) as [t'|] eqn:E.
  - split; [discriminate|]. intros H. exfalso.
    apply lastWithKey_Some in E. destruct E as [Hin Hk].
    apply H. right. subst k. apply in_map. exact Hin.
  - destruct (String.eqb (keyOf t) k) eqn:Ek.
    + apply String.eqb_eq in Ek. split; [discriminate|tauto].
    + apply String.eqb_neq in Ek. tauto.
Qed.

Lemma lastWithKey_NoDup t l :
  NoDup (map keyOf l) -> In t l -> lastWithKey keyOf (keyOf t) l = Some t.
Proof.
  induction l as [|u l IH]; simpl; [tauto|].
  intros Hnd Hin. inversion Hnd as [|? ? Hu Hnd']; subst.
  rewrite lastWithKey_cons. destruct Hin as [->|Hin].
  - apply lastWithKey_None in Hu. rewrite Hu, String.eqb_refl.
    reflexivity.
  - rewrite (IH Hnd' Hin). reflexivity.
Qed.

(** With one token per key, the order of the sequence does not matter. *)
Lemma lastWithKey_Permutation k l l' :
  NoDup (map keyOf l) -> Permutation l l' ->
  lastWithKey keyOf k l = lastWithKey keyOf k l'.
Proof.
  intros Hnd Hp.
  assert (Hnd' : NoDup (map keyOf l'))
    by (eapply Permutation_NoDup; [apply Permutation_map; exact Hp|exact Hnd]).
  destruct (lastWithKey keyOf k l) as [t|] eqn:E.
  - apply lastWithKey_Some in E. destruct E as [Hin <-].
    symmetry. apply lastWithKey_NoDup; [exact Hnd'|].
    eapply Permutation_in; eassumption.
  - symmetry. apply lastWithKey_None. apply lastWithKey_None in E.
    intros Hin. apply E.
    eapply Permutation_in; [apply Permutation_sym, Permutation_map; exact Hp|].
    exact Hin.
Qed.

End ModifiedVerdict.

(** When tokens of the same key are the same token, the order of the
    sequence does not matter either. *)
Lemma lastWithKey_Permutation_same keyOf k l l' :
  sameKeySameToken keyOf l -> Permutation l l' ->
  lastWithKey keyOf k l = lastWithKey keyOf k l'.
Proof.
  intros Hsame Hp.
  destruct (lastWithKey keyOf k l) as [t|] eqn:E,
           (lastWithKey keyOf k l') as [u|] eqn:E'.
  - apply lastWithKey_Some in E. apply lastWithKey_Some in E'.
    destruct E as [Ht Hkt]. destruct E' as [Hu Hku].
    f_equal. apply Hsame; [exact Ht| |congruence].
    apply (Permutation_in _ (Permutation_sym Hp)). exact Hu.
  - exfalso. apply lastWithKey_Some in E. destruct E as [Ht Hkt].
    apply lastWithKey_None in E'. apply E'. rewrite <- Hkt.
    apply in_map. apply (Permutation_in _ Hp). exact Ht.
  - exfalso. apply lastWithKey_Some in E'. destruct E' as [Hu Hku].
    apply lastWithKey_None in E. apply E. rewrite <- Hku.
    apply in_map. apply (Permutation_in _ (Permutation_sym Hp)). exact Hu.
  - reflexivity.
Qed.

(** ** The key of the build script *)

Lemma length_append (s1 s2 : string) :
  String.length (s1 ++ s2)%string = String.length s1 + String.length s2.
Proof.
  induction s1 as [|ch s1 IH]; simpl; [reflexivity|].
  rewrite IH. reflexivity.
Qed.

Lemma append_inv_tail (s1 s2 s : string) :
  (s1 ++ s)%string = (s2 ++ s)%string -> s1 = s2.
Proof.
  revert s2. induction s1 as [|ch s1 IH]; intros [|ch' s2] H; simpl in H.
  - reflexivity.
  - exfalso. apply (f_equal String.length) in H. simpl in H.
    rewrite length_append in H. lia.
  - exfalso. apply (f_equal String.length) in H. simpl in H.
    rewrite length_append in H. lia.
  - injection H as -> H. f_equal. apply IH. exact H.
Qed.

(** Two tokens with the same chainId and the same key have the same
    address. *)
Lemma tokenKey_address t t' :
  chainId t = chainId t' -> tokenKey t = tokenKey t' -> address t = address t'.
Proof.
  unfold tokenKey. intros ->. apply append_inv_tail.
Qed.

(** ** The conditions that set each flag *)

Section Conditions.

Variable keyOf : Token -> string.

Lemma recordMeets_classify c : recordMeets keyOf c (classify keyOf [c]).
Proof.
  destruct (type c) eqn:Hc.
  - rewrite (classify_added keyOf c Hc).
    unfold recordMeets, MajorCondition, MinorCondition. rewrite Hc.
    split; [intros [H|[H _]]; discriminate|auto].
  - rewrite classify_single.
    destruct (recordFlags_modified keyOf c Hc) as (M & N & P).
    assert (HM : MajorCondition keyOf c <->
                 Missing (beforeLookup keyOf c) (afterLookup keyOf c) \/
                 Matched idDiffers (beforeLookup keyOf c)
                   (afterLookup keyOf c)).
    { unfold MajorCondition. rewrite Hc. intuition discriminate. }
    assert (HN : MinorCondition keyOf c <->
                 Missing (afterLookup keyOf c) (beforeLookup keyOf c)).
    { unfold MinorCondition. rewrite Hc. intuition discriminate. }
    assert (HP : PatchCondition keyOf c <->
                 Matched detailsDiffer (beforeLookup keyOf c)
                   (afterLookup keyOf c)).
    { unfold PatchCondition. rewrite Hc. intuition discriminate. }
    unfold resolveIncrement.
    destruct (hasMajorChange _).
    { apply HM, M. reflexivity. }
    assert (Hmaj : ~ MajorCondition keyOf c).
    { intros X. apply HM, M in X. discriminate. }
    assert (Hid : ~ Matched idDiffers (beforeLookup keyOf c)
                    (afterLookup keyOf c)) by tauto.
    specialize (P Hid).
    destruct (hasMinorChange _).
    { split; [exact Hmaj|]. apply HN, N. reflexivity. }
    assert (Hmin : ~ MinorCondition keyOf c).
    { intros X. apply HN, N in X. discriminate. }
    destruct (hasPatchChange _).
    { split; [exact Hmaj|]. split; [exact Hmin|].
      apply HP, P. reflexivity. }
    split; [exact Hmaj|]. split; [exact Hmin|].
    intros X. apply HP, P in X. discriminate.
  - rewrite (classify_deleted keyOf c Hc).
    unfold recordMeets, MajorCondition. auto.
Qed.

(** The verdict names the strongest condition some record meets. *)
Lemma verdictMeets_classify cs : verdictMeets keyOf cs (classify keyOf cs).
Proof.
  induction cs as [|c cs IH].
  - simpl. rewrite !Exists_nil. tauto.
  - rewrite classify_cons. pose proof (recordMeets_classify c) as Hc.
    destruct (classify keyOf [c]) as [[]|],
             (classify keyOf cs) as [[]|];
      cbn [highest verdictMeets recordMeets] in *;
      rewrite !Exists_cons; tauto.
Qed.

Lemma conditions_of_verdict cs v :
  classify keyOf cs = v -> verdictMeets keyOf cs v.
Proof. intros <-. apply verdictMeets_classify. Qed.

End Conditions.

(** * Properties of the classifier *)

(** C1: for every change list the verdict is one of the four values major,
    minor, patch and none, and it is resolved by strict priority: major when
    the major flag is set (some record meets a major condition), else minor
    when the minor flag is set, else patch when the patch flag is set, else
    none. *)
Theorem verdict_strict_priority (changes : list TokenChange) :
  let fl := analyzeChanges tokenKey changes in
  let v := determineVersionIncrement changes in
  (v = Some Major \/ v = Some Minor \/ v = Some Patch \/ v = None) /\
  v = (if hasMajorChange fl then Some Major
       else if hasMinorChange fl then Some Minor
       else if hasPatchChange fl then Some Patch
       else None) /\
  (Exists (MajorCondition tokenKey) changes -> v = Some Major) /\
  (~ Exists (MajorCondition tokenKey) changes ->
   Exists (MinorCondition tokenKey) changes -> v = Some Minor) /\
  (~ Exists (MajorCondition tokenKey) changes ->
   ~ Exists (MinorCondition tokenKey) changes ->
   Exists (PatchCondition tokenKey) changes -> v = Some Patch) /\
  (~ Exists (MajorCondition tokenKey) changes ->
   ~ Exists (MinorCondition tokenKey) changes ->
   ~ Exists (PatchCondition tokenKey) changes -> v = None).
Proof.
  intros fl v.
  pose proof (verdictMeets_classify tokenKey changes) as H.
  fold determineVersionIncrement in H. fold v in H.
  split; [destruct v as [[]|]; auto|].
  split; [reflexivity|].
  destruct v as [[]|]; cbn [verdictMeets] in H; tauto.
Qed.

Lemma verdict_strict_priority_witness :
  determineVersionIncrement
    [Examples.metadataRecord; Examples.additionRecord;
     Examples.deletedRecord] = Some Major /\
  determineVersionIncrement
    [Examples.metadataRecord; Examples.additionRecord] = Some Minor /\
  determineVersionIncrement [Examples.metadataRecord] = Some Patch /\
  determineVersionIncrement [Examples.reorderedRecord] = None.
Proof.
  split; [|split; [|split]].
  - apply (verdict_strict_priority
             [Examples.metadataRecord; Examples.additionRecord;
              Examples.deletedRecord]).
    exact (conditions_of_verdict tokenKey
             [Examples.metadataRecord; Examples.additionRecord;
              Examples.deletedRecord] (Some Major) eq_refl).
  - destruct (conditions_of_verdict tokenKey
                [Examples.metadataRecord; Examples.additionRecord]
                (Some Minor) eq_refl) as [H1 H2].
    apply (verdict_strict_priority
             [Examples.metadataRecord; Examples.additionRecord]);
      assumption.
  - destruct (conditions_of_verdict tokenKey [Examples.metadataRecord]
                (Some Patch) eq_refl) as (H1 & H2 & H3).
    apply (verdict_strict_priority [Examples.metadataRecord]); assumption.
  - destruct (conditions_of_verdict tokenKey [Examples.reorderedRecord]
                None eq_refl) as (H1 & H2 & H3).
    apply (verdict_strict_priority [Examples.reorderedRecord]); assumption.
Defined.

(** C2, as stated, fails: with two different tokens of the same Map key in
    [before], the map keeps the last one, and swapping them changes the
    verdict. *)
Lemma permutation_invariance_counterexample :
  ~ (forall cs1 c cs2 tokens,
        Permutation (orEmpty (before c)) tokens ->
        determineVersionIncrement (cs1 ++ c :: cs2) =
        determineVersionIncrement (cs1 ++ withBefore c tokens :: cs2)).
Proof.
  intros H.
  specialize (H []
    (mkChange "chains/1.json" modified
       (Some [Examples.tokenTestUpdated; Examples.tokenTest])
       (Some [Examples.tokenTest]))
    [] [Examples.tokenTest; Examples.tokenTestUpdated]
    (perm_swap _ _ _)).
  vm_compute in H. discriminate H.
Qed.

(** C2 (amended): permuting the tokens inside the [before] sequence of one
    record of a change list, or inside its [after] sequence, does not change
    the verdict, provided that, when the record is [modified], any two
    tokens of the permuted sequence that have the same Map key (the string
    [`${address}-${chainId}`]) are the same token. *)
Theorem permutation_invariance_distinct_keys
    (cs1 : list TokenChange) (c : TokenChange) (cs2 : list TokenChange)
    (tokens : list Token) :
  (Permutation (orEmpty (before c)) tokens ->
   (type c = modified -> sameKeySameToken tokenKey (orEmpty (before c))) ->
   determineVersionIncrement (cs1 ++ c :: cs2) =
   determineVersionIncrement (cs1 ++ withBefore c tokens :: cs2)) /\
  (Permutation (orEmpty (after c)) tokens ->
   (type c = modified -> sameKeySameToken tokenKey (orEmpty (after c))) ->
   determineVersionIncrement (cs1 ++ c :: cs2) =
   determineVersionIncrement (cs1 ++ withAfter c tokens :: cs2)).
Proof.
  split; intros Hp Hsame; apply classify_replace;
    (destruct (type c) eqn:Hc;
     [ rewrite !classify_added; auto
     | apply classify_modified_ext; auto; intros k;
       unfold beforeLookup, afterLookup; cbn [before after withBefore
         withAfter orEmpty]; auto;
       rewrite !get_tokenMap; apply lastWithKey_Permutation_same; auto
     | rewrite !classify_deleted; auto ]).
Qed.

Lemma permutation_invariance_distinct_keys_witness :
  determineVersionIncrement
    [Examples.metadataRecord;
     mkChange "chains/1.json" modified
       (Some [Examples.tokenTest; Examples.tokenOld; Examples.tokenTest])
       (Some [Examples.tokenOld; Examples.tokenTest])] =
  determineVersionIncrement
    [Examples.metadataRecord;
     mkChange "chains/1.json" modified
       (Some [Examples.tokenTest; Examples.tokenTest; Examples.tokenOld])
       (Some [Examples.tokenOld; Examples.tokenTest])] /\
  determineVersionIncrement
    [Examples.metadataRecord;
     mkChange "chains/1.json" modified
       (Some [Examples.tokenTest; Examples.tokenOld; Examples.tokenTest])
       (Some [Examples.tokenOld; Examples.tokenTest])] =
  determineVersionIncrement
    [Examples.metadataRecord;
     mkChange "chains/1.json" modified
       (Some [Examples.tokenTest; Examples.tokenOld; Examples.tokenTest])
       (Some [Examples.tokenTest; Examples.tokenOld])].
Proof.
  split.
  - apply (proj1 (permutation_invariance_distinct_keys
             [Examples.metadataRecord]
             (mkChange "chains/1.json" modified
                (Some [Examples.tokenTest; Examples.tokenOld;
                       Examples.tokenTest])
                (Some [Examples.tokenOld; Examples.tokenTest]))
             []
             [Examples.tokenTest; Examples.tokenTest; Examples.tokenOld])).
    + apply perm_skip, perm_swap.
    + intros _ t u [<-|[<-|[<-|[]]]] [<-|[<-|[<-|[]]]] H;
        try reflexivity; discriminate H.
  - apply (proj2 (permutation_invariance_distinct_keys
             [Examples.metadataRecord]
             (mkChange "chains/1.json" modified
                (Some [Examples.tokenTest; Examples.tokenOld;
                       Examples.tokenTest])
                (Some [Examples.tokenOld; Examples.tokenTest]))
             []
             [Examples.tokenTest; Examples.tokenOld])).
    + apply perm_swap.
    + intros _ t u [<-|[<-|[]]] [<-|[<-|[]]] H;
        try reflexivity; discriminate H.
Defined.

(** C3: the flags of a change list are the disjunction of the flags of its
    records; its verdict is the highest-priority verdict among those its
    records yield alone, it does not depend on the order of the records, and
    a record that alone yields minor together with a record that alone
    yields patch yields minor. *)
Theorem verdict_aggregates_records (changes : list TokenChange) :
  analyzeChanges tokenKey changes =
    fold_left (fun fl c => orFlags fl (recordFlags tokenKey c))
      changes noFlags /\
  determineVersionIncrement changes =
    fold_right highest None
      (map (fun c => determineVersionIncrement [c]) changes) /\
  (forall changes',
     Permutation changes changes' ->
     determineVersionIncrement changes = determineVersionIncrement changes') /\
  (forall c1 c2,
     changes = [c1; c2] ->
     determineVersionIncrement [c1] = Some Minor ->
     determineVersionIncrement [c2] = Some Patch ->
     determineVersionIncrement changes = Some Minor).
Proof.
  split; [apply analyzeChanges_orFlags|].
  split; [apply classify_highest|].
  split; [intros changes'; apply classify_Permutation|].
  intros c1 c2 -> H1 H2. unfold determineVersionIncrement in *.
  rewrite classify_cons, H1, H2. reflexivity.
Qed.

Lemma verdict_aggregates_records_witness :
  determineVersionIncrement
    [Examples.additionRecord; Examples.metadataRecord] =
  determineVersionIncrement
    [Examples.metadataRecord; Examples.additionRecord] /\
  determineVersionIncrement
    [Examples.additionRecord; Examples.metadataRecord] = Some Minor.
Proof.
  pose proof (verdict_aggregates_records
                [Examples.additionRecord; Examples.metadataRecord])
    as (_ & _ & Hperm & Hpair).
  split.
  - apply Hperm. apply perm_swap.
  - apply (Hpair Examples.additionRecord Examples.metadataRecord);
      reflexivity.
Defined.

(** C5: a change list that contains a record of type [deleted] yields major,
    whatever the [before] of that record holds (an empty or an absent
    sequence as well) and whatever the other records are. *)
Theorem deleted_record_yields_major
    (changes : list TokenChange) (c : TokenChange) :
  In c changes -> type c = deleted ->
  determineVersionIncrement changes = Some Major.
Proof.
  intros Hin Hc. apply in_split in Hin. destruct Hin as (cs1 & cs2 & ->).
  unfold determineVersionIncrement.
  rewrite classify_app, classify_cons, (classify_deleted tokenKey c Hc).
  rewrite highest_Major_l, highest_comm. apply highest_Major_l.
Qed.

Lemma deleted_record_yields_major_witness :
  determineVersionIncrement
    [Examples.metadataRecord;
     mkChange "chains/10.json" deleted (Some []) None;
     Examples.additionRecord] = Some Major.
Proof.
  apply (deleted_record_yields_major _
           (mkChange "chains/10.json" deleted (Some []) None)).
  - right. left. reflexivity.
  - reflexivity.
Defined.

(** C6, as stated, fails: two sequences that hold the same tokens in a
    different order yield patch when two tokens have the same Map key and
    differ in a compared field. *)
Lemma identical_tokens_counterexample :
  ~ (forall f b a,
        Permutation b a ->
        determineVersionIncrement [mkChange f modified (Some b) (Some a)] =
        None).
Proof.
  intros H.
  specialize (H "chains/1.json"
    [Examples.tokenTest; Examples.tokenTestUpdated]
    [Examples.tokenTestUpdated; Examples.tokenTest] (perm_swap _ _ _)).
  vm_compute in H. discriminate H.
Qed.

(** C6 (amended): a single [modified] record whose [before] and [after] are
    the same sequence yields none; when they hold the same tokens in a
    different order it yields none provided any two tokens of the sequence
    that have the same Map key (the string [`${address}-${chainId}`]) are
    the same token. *)
Theorem identical_tokens_yield_none
    (f : string) (b a : list Token) :
  determineVersionIncrement [mkChange f modified (Some b) (Some b)] = None /\
  (Permutation b a -> sameKeySameToken tokenKey b ->
   determineVersionIncrement [mkChange f modified (Some b) (Some a)] = None).
Proof.
  split.
  - apply classify_modified_same; [reflexivity|]. intros k. reflexivity.
  - intros Hp Hsame. apply classify_modified_same; [reflexivity|].
    intros k. unfold beforeLookup, afterLookup. cbn [before after orEmpty].
    rewrite !get_tokenMap. apply lastWithKey_Permutation_same; assumption.
Qed.

Lemma identical_tokens_yield_none_witness :
  determineVersionIncrement
    [mkChange "chains/1.json" modified
       (Some [Examples.tokenTest; Examples.tokenOld; Examples.tokenTest])
       (Some [Examples.tokenTest; Examples.tokenTest; Examples.tokenOld])] =
  None.
Proof.
  apply (identical_tokens_yield_none "chains/1.json"
           [Examples.tokenTest; Examples.tokenOld; Examples.tokenTest]
           [Examples.tokenTest; Examples.tokenTest; Examples.tokenOld]).
  - apply perm_skip, perm_swap.
  - intros t u [<-|[<-|[<-|[]]]] [<-|[<-|[<-|[]]]] H;
      try reflexivity; discriminate H.
Defined.

(** C7, as stated, fails: when another token of the record has the Map key
    of the token whose address changes, that key is still on both sides,
    and the record yields minor. *)
Lemma address_change_counterexample :
  ~ (forall f l1 t t' l2,
        address t <> address t' -> chainId t' = chainId t ->
        determineVersionIncrement
          [mkChange f modified (Some (l1 ++ t :: l2))
             (Some (l1 ++ t' :: l2))] = Some Major).
Proof.
  intros H.
  specialize (H "chains/1.json" [] Examples.tokenTest Examples.tokenMoved
                [Examples.tokenTest]).
  assert (Hv : determineVersionIncrement
                 [mkChange "chains/1.json" modified
                    (Some ([] ++ Examples.tokenTest :: [Examples.tokenTest]))
                    (Some ([] ++ Examples.tokenMoved :: [Examples.tokenTest]))]
               = Some Minor) by (vm_compute; reflexivity).
  rewrite Hv in H.
  assert (Hs : Some Minor = Some Major); [|discriminate Hs].
  apply H; [|reflexivity]. simpl. discriminate.
Qed.

(** C7 (amended): a single [modified] record in which the address of exactly
    one token differs between [before] and [after], the other tokens being
    the same, yields major whatever the compared fields of that token become,
    provided no other token of the record has the Map key (the string
    [`${address}-${chainId}`]) that the token had. *)
Theorem address_change_yields_major
    (f : string) (l1 : list Token) (t t' : Token) (l2 : list Token) :
  address t <> address t' -> chainId t' = chainId t ->
  ~ In (tokenKey t) (map tokenKey (l1 ++ l2)) ->
  determineVersionIncrement
    [mkChange f modified (Some (l1 ++ t :: l2)) (Some (l1 ++ t' :: l2))] =
  Some Major.
Proof.
  intros Haddr Hchain Hfresh.
  apply classify_modified_Major; [reflexivity|].
  unfold Missing, beforeLookup, afterLookup. cbn [before after orEmpty].
  destruct (lastWithKey tokenKey (tokenKey t) (l1 ++ t :: l2)) as [b|] eqn:Eb.
  - exists (tokenKey t), b. rewrite !get_tokenMap. split; [exact Eb|].
    apply lastWithKey_None. rewrite map_app, in_app_iff. cbn [map In].
    rewrite map_app, in_app_iff in Hfresh.
    intros [H|[H|H]]; [tauto| |tauto].
    apply Haddr. symmetry. apply tokenKey_address; assumption.
  - exfalso. apply lastWithKey_None in Eb. apply Eb.
    apply in_map, in_elt.
Qed.

Lemma address_change_yields_major_witness :
  determineVersionIncrement
    [mkChange "chains/1.json" modified
       (Some ([Examples.tokenOld] ++ Examples.tokenTest :: []))
       (Some ([Examples.tokenOld] ++ Examples.tokenMoved :: []))] =
  Some Major.
Proof.
  apply (address_change_yields_major "chains/1.json"
           [Examples.tokenOld] Examples.tokenTest Examples.tokenMoved []).
  - discriminate.
  - reflexivity.
  - intros [H|[]]. discriminate H.
Defined.

(** C8, as stated, fails: when a later token of the sequence has the Map key
    of the token whose decimals change, the map keeps that later token on
    both sides, and the record yields none. *)
Lemma decimals_change_counterexample :
  ~ (forall f l1 t d l2,
        d <> decimals t ->
        determineVersionIncrement
          [mkChange f modified (Some (l1 ++ t :: l2))
             (Some (l1 ++ withDecimals t d :: l2))] = Some Patch).
Proof.
  intros H.
  specialize (H "chains/1.json" [] Examples.tokenTest 8%Z
                [Examples.tokenSixDecimals]).
  assert (Hv : determineVersionIncrement
                 [mkChange "chains/1.json" modified
                    (Some ([] ++ Examples.tokenTest ::
                             [Examples.tokenSixDecimals]))
                    (Some ([] ++ withDecimals Examples.tokenTest 8 ::
                             [Examples.tokenSixDecimals]))]
               = None) by (vm_compute; reflexivity).
  rewrite Hv in H.
  assert (Hs : None = Some Patch); [|discriminate Hs].
  apply H. simpl. discriminate.
Qed.

(** C8 (amended): a single [modified] record in which exactly one token
    differs between [before] and [after], and only in its [decimals], yields
    patch, provided no later token of the sequence has the Map key (the
    string [`${address}-${chainId}`]) of that token. *)
Theorem decimals_change_yields_patch
    (f : string) (l1 : list Token) (t : Token) (d : Z) (l2 : list Token) :
  d <> decimals t ->
  ~ In (tokenKey t) (map tokenKey l2) ->
  determineVersionIncrement
    [mkChange f modified (Some (l1 ++ t :: l2))
       (Some (l1 ++ withDecimals t d :: l2))] = Some Patch.
Proof.
  intros Hd Hfresh.
  set (t' := withDecimals t d).
  assert (Hkey : tokenKey t' = tokenKey t) by reflexivity.
  assert (Hcases : forall k,
    lastWithKey tokenKey k (l1 ++ t :: l2) =
    lastWithKey tokenKey k (l1 ++ t' :: l2) \/
    (k = tokenKey t /\
     lastWithKey tokenKey k l2 = None /\
     lastWithKey tokenKey k (l1 ++ t :: l2) = Some t /\
     lastWithKey tokenKey k (l1 ++ t' :: l2) = Some t')).
  { intros k. rewrite !lastWithKey_app, !lastWithKey_cons, Hkey.
    destruct (lastWithKey tokenKey k l2); [left; reflexivity|].
    destruct (String.eqb (tokenKey t) k) eqn:Ek; [|left; reflexivity].
    apply String.eqb_eq in Ek. right. auto. }
  assert (Hid : idDiffers t t' = false)
    by (apply idDiffers_false; split; reflexivity).
  assert (Hdt : detailsDiffer t t' = true).
  { destruct (detailsDiffer t t') eqn:E; [reflexivity|].
    apply detailsDiffer_false in E. destruct E as (_ & _ & _ & E).
    exfalso. apply Hd. symmetry. exact E. }
  apply classify_modified_Patch; [reflexivity| | | |];
    unfold Missing, Matched, beforeLookup, afterLookup;
    cbn [before after orEmpty].
  - intros (k & b & Hb & Ha). rewrite get_tokenMap in Hb, Ha.
    destruct (Hcases k) as [E|(_ & _ & E1 & E2)]; congruence.
  - intros (k & b & Ha & Hb). rewrite get_tokenMap in Hb, Ha.
    destruct (Hcases k) as [E|(_ & _ & E1 & E2)]; congruence.
  - intros (k & b & a & Hb & Ha & Hdiff). rewrite get_tokenMap in Hb, Ha.
    destruct (Hcases k) as [E|(_ & _ & E1 & E2)].
    + assert (b = a) by congruence. subst a.
      rewrite idDiffers_refl in Hdiff. discriminate.
    + assert (b = t) by congruence. assert (a = t') by congruence.
      subst a b. congruence.
  - exists (tokenKey t), t, t'. rewrite !get_tokenMap.
    destruct (Hcases (tokenKey t)) as [E|(_ & _ & E1 & E2)]; [|auto].
    exfalso. revert E. rewrite !lastWithKey_app, !lastWithKey_cons, Hkey.
    apply lastWithKey_None in Hfresh. rewrite Hfresh, String.eqb_refl.
    intros [= E]. apply Hd. change d with (decimals t').
    rewrite <- E. reflexivity.
Qed.

Lemma decimals_change_yields_patch_witness :
  determineVersionIncrement
    [mkChange "chains/1.json" modified
       (Some ([Examples.tokenOld] ++ Examples.tokenTest :: []))
       (Some ([Examples.tokenOld] ++
              withDecimals Examples.tokenTest 6 :: []))] = Some Patch.
Proof.
  apply (decimals_change_yields_patch "chains/1.json"
           [Examples.tokenOld] Examples.tokenTest 6%Z []).
  - discriminate.
  - intros [].
Defined.

(** ** The copy of the classifier in the test file *)

Lemma tokenKeyTest_nonzero t :
  chainId t <> Some 0%Z -> tokenKeyTest t = tokenKey t.
Proof.
  unfold tokenKeyTest, tokenKey. destruct (chainId t) as [n|]; simpl.
  - intros H. destruct (Z.eqb n 0) eqn:E; [|reflexivity].
    apply Z.eqb_eq in E. subst n. exfalso. apply H. reflexivity.
  - reflexivity.
Qed.

(** The key function matters only on the tokens of the records. *)
Lemma classify_key_ext (keyOf keyOf' : Token -> string) cs :
  (forall c t, In c cs ->
     In t (orEmpty (before c) ++ orEmpty (after c)) -> keyOf t = keyOf' t) ->
  classify keyOf cs = classify keyOf' cs.
Proof.
  intros H. rewrite !classify_highest. f_equal.
  apply map_ext_in. intros c Hc.
  assert (Hb : tokenMap keyOf (orEmpty (before c)) =
               tokenMap keyOf' (orEmpty (before c))).
  { unfold tokenMap. f_equal. apply map_ext_in. intros t Ht.
    rewrite (H c t Hc); [reflexivity|]. apply in_or_app. auto. }
  assert (Ha : tokenMap keyOf (orEmpty (after c)) =
               tokenMap keyOf' (orEmpty (after c))).
  { unfold tokenMap. f_equal. apply map_ext_in. intros t Ht.
    rewrite (H c t Hc); [reflexivity|]. apply in_or_app. auto. }
  unfold classify, analyzeChanges. cbn [fold_left].
  unfold analyzeChange, analyzeModified. rewrite Hb, Ha. reflexivity.
Qed.

(** The two classifiers agree on the change lists in which no token has
    chainId 0. *)
Lemma classifiers_agree_without_chain_zero cs :
  (forall c t, In c cs ->
     In t (orEmpty (before c) ++ orEmpty (after c)) ->
     chainId t <> Some 0%Z) ->
  determineVersionIncrementTest cs = determineVersionIncrement cs.
Proof.
  intros H. apply classify_key_ext. intros c t Hc Ht.
  apply tokenKeyTest_nonzero. exact (H c t Hc Ht).
Qed.

(** C4 fails: on [chainZeroRemoved] the build script answers major (the key
    ["0x123-0"] is gone), while the copy in the test file answers none (both
    tokens get the key ["0x123-undefined"]); so the two classifiers are not
    the same function. *)
Theorem test_copy_diverges_on_chain_zero :
  determineVersionIncrement chainZeroRemoved = Some Major /\
  determineVersionIncrementTest chainZeroRemoved = None /\
  ~ (forall changes,
       determineVersionIncrement changes =
       determineVersionIncrementTest changes).
Proof.
  assert (H1 : determineVersionIncrement chainZeroRemoved = Some Major)
    by (vm_compute; reflexivity).
  assert (H2 : determineVersionIncrementTest chainZeroRemoved = None)
    by (vm_compute; reflexivity).
  split; [exact H1|]. split; [exact H2|].
  intros H. specialize (H chainZeroRemoved). rewrite H1, H2 in H.
  discriminate H.
Qed.

(** ** The consumer *)

Lemma roundToDouble_exact x :
  (- 2 ^ 53 <= x <= 2 ^ 53)%Z -> roundToDouble x = x.
Proof.
  intros Hx.
  destruct (Z.eq_dec (Z.abs x) (2 ^ 53)) as [E|E].
  - assert (Hc : x = (2 ^ 53)%Z \/ x = (- 2 ^ 53)%Z) by lia.
    destruct Hc as [-> | ->]; vm_compute; reflexivity.
  - unfold roundToDouble.
    assert (Hlog : (Z.log2 (Z.abs x) - 52 <= 0)%Z).
    { destruct (Z.eq_dec (Z.abs x) 0) as [E0|E0].
      - rewrite E0. cbn. lia.
      - assert (Z.log2 (Z.abs x) < 53)%Z; [|lia].
        apply Z.log2_lt_pow2; lia. }
    apply Z.leb_le in Hlog. rewrite Hlog. reflexivity.
Qed.

Lemma numberAdd_safe n : safeNumber n -> numberAdd n 1 = (n + 1)%Z.
Proof.
  unfold safeNumber, numberAdd. intros Hn. apply roundToDouble_exact. lia.
Qed.

(** C9, as stated, fails: a Number is a double, and at a major of 2^53 the
    sum [major + 1] is 2^53 again. *)
Lemma consumer_version_counterexample :
  ~ (forall currentTimestamp (st : Store unit),
       version (fst (applyIncrement (Some Major) currentTimestamp st)) =
       mkVersion (major (version (baseTokenlist st)) + 1) 0 0).
Proof.
  intros H.
  specialize (H "2026-01-01T00:00:00.000Z"
    (mkStore unit
       (mkTemplate unit (mkVersion 9007199254740992 4 2)
          "2025-01-01T00:00:00.000Z" tt)
       "9007199254740992.4.2")).
  vm_compute in H. discriminate H.
Qed.

(** C9 (amended): from the verdict and the current version (major, minor,
    patch), the build script produces (major+1, 0, 0) for major, (major,
    minor+1, 0) for minor and (major, minor, patch+1) for patch, provided
    the field it adds 1 to is an integer that is not negative and is below
    2^53, and writes it back with the new timestamp; for the verdict none
    the version, the timestamp and the files are left as they are. *)
Theorem consumer_applies_verdict
    (Other : Type) (v : Verdict) (currentTimestamp : string)
    (st : Store Other) :
  let current := version (baseTokenlist st) in
  let result := applyIncrement v currentTimestamp st in
  match v with
  | Some Major =>
      safeNumber (major current) ->
      version (fst result) =
        mkVersion (major current + 1) 0 0 /\
      timestamp (fst result) = currentTimestamp /\
      baseTokenlist (snd result) = fst result
  | Some Minor =>
      safeNumber (minor current) ->
      version (fst result) =
        mkVersion (major current) (minor current + 1) 0 /\
      timestamp (fst result) = currentTimestamp /\
      baseTokenlist (snd result) = fst result
  | Some Patch =>
      safeNumber (patch current) ->
      version (fst result) =
        mkVersion (major current) (minor current) (patch current + 1) /\
      timestamp (fst result) = currentTimestamp /\
      baseTokenlist (snd result) = fst result
  | None =>
      version (fst result) = current /\
      timestamp (fst result) = timestamp (baseTokenlist st) /\
      snd result = st
  end /\
  (forall changes,
     v = determineVersionIncrement changes ->
     incrementVersion true changes currentTimestamp st = result).
Proof.
  intros current result. subst current result. split.
  - destruct v as [[]|]; cbn [applyIncrement fst snd version timestamp
      baseTokenlist newVersion].
    + intros Hs. rewrite (numberAdd_safe _ Hs). auto.
    + intros Hs. rewrite (numberAdd_safe _ Hs). auto.
    + intros Hs. rewrite (numberAdd_safe _ Hs). auto.
    + auto.
  - intros changes ->. reflexivity.
Qed.

Lemma consumer_applies_verdict_witness :
  version
    (fst (applyIncrement (Some Minor) "2026-01-01T00:00:00.000Z"
            (mkStore unit
               (mkTemplate unit (mkVersion 1 4 2)
                  "2025-01-01T00:00:00.000Z" tt)
               "1.4.2"))) = mkVersion 1 5 0 /\
  incrementVersion true
    [Examples.metadataRecord; Examples.additionRecord]
    "2026-01-01T00:00:00.000Z"
    (mkStore unit
       (mkTemplate unit (mkVersion 1 4 2) "2025-01-01T00:00:00.000Z" tt)
       "1.4.2") =
  (mkTemplate unit (mkVersion 1 5 0) "2026-01-01T00:00:00.000Z" tt,
   mkStore unit
     (mkTemplate unit (mkVersion 1 5 0) "2026-01-01T00:00:00.000Z" tt)
     "1.5.0").
Proof.
  destruct (consumer_applies_verdict unit (Some Minor)
              "2026-01-01T00:00:00.000Z"
              (mkStore unit
                 (mkTemplate unit (mkVersion 1 4 2)
                    "2025-01-01T00:00:00.000Z" tt)
                 "1.4.2")) as [H1 H2].
  split.
  - apply H1. unfold safeNumber. cbn. lia.
  - apply H2. reflexivity.
Defined.

(** ** Totality *)

Lemma checkFieldsOutcome_Done fields b a p :
  checkFieldsOutcome fields b (Some a) p = Done (checkFields fields b a p).
Proof.
  induction fields as [|field fields IH];
    cbn [checkFieldsOutcome checkFields readField andThen]; [reflexivity|].
  destruct (negb _); [reflexivity|exact IH].
Qed.

(** The guard [if (afterToken)] keeps the loop from reading a property of
    [undefined]. *)
Lemma checkModifiedOutcome_Done es am mj pt :
  checkModifiedOutcome es am mj pt = Done (checkModified es am mj pt).
Proof.
  revert mj pt. induction es as [|[k b] es IH]; intros mj pt;
    cbn [checkModifiedOutcome checkModified]; [reflexivity|].
  destruct (JsMap.get k am) as [a|];
    cbn [truthyToken readField andThen getField]; [|apply IH].
  change (getField "address" a) with (JsString (address a)).
  change (getField "chainId" a) with (ofOptNumber (chainId a)).
  destruct (_ || _); [reflexivity|].
  rewrite checkFieldsOutcome_Done. cbn [andThen]. apply IH.
Qed.

(** The guard [|| \[\]] keeps [map] from being read of [undefined]. *)
Lemma analyzeModifiedOutcome_Done c fl :
  analyzeModifiedOutcome c fl = Done (analyzeModified tokenKey c fl).
Proof.
  unfold analyzeModifiedOutcome, analyzeModified, tokenMap.
  destruct (before c) as [b|], (after c) as [a|];
    cbn [orEmptyArray orEmpty arrayMap andThen];
    rewrite checkModifiedOutcome_Done; cbn [andThen];
    destruct (checkModified _ _ _ _); reflexivity.
Qed.

Lemma analyzeChangesOutcome_Done cs fl :
  analyzeChangesOutcome cs fl = Done (fold_left (analyzeChange tokenKey) cs fl).
Proof.
  revert fl. induction cs as [|c cs IH]; intros fl;
    cbn [analyzeChangesOutcome fold_left]; [reflexivity|].
  assert (H : analyzeChangeOutcome fl c = Done (analyzeChange tokenKey fl c)).
  { unfold analyzeChangeOutcome, analyzeChange.
    destruct (type c); [reflexivity|apply analyzeModifiedOutcome_Done|
                        reflexivity]. }
  rewrite H. cbn [andThen]. apply IH.
Qed.

Lemma determineVersionIncrementOutcome_Done cs :
  determineVersionIncrementOutcome cs = Done (determineVersionIncrement cs).
Proof.
  unfold determineVersionIncrementOutcome.
  rewrite analyzeChangesOutcome_Done. reflexivity.
Qed.

Lemma keepLast_incl keyOf l t : In t (keepLast keyOf l) -> In t l.
Proof.
  induction l as [|u l IH]; cbn [keepLast]; [tauto|].
  destruct (existsb _ l); cbn [In]; tauto.
Qed.

(** One token per Map key is left. *)
Lemma NoDup_keepLast keyOf l : NoDup (map keyOf (keepLast keyOf l)).
Proof.
  induction l as [|t l IH]; cbn [keepLast]; [constructor|].
  destruct (existsb (fun u => String.eqb (keyOf u) (keyOf t)) l) eqn:E;
    [exact IH|].
  cbn [map]. constructor; [|exact IH].
  intros Hin. apply in_map_iff in Hin. destruct Hin as (u & Hk & Hu).
  apply keepLast_incl in Hu.
  assert (Hex : existsb (fun u => String.eqb (keyOf u) (keyOf t)) l = true).
  { apply existsb_exists. exists u. split; [exact Hu|].
    apply String.eqb_eq. exact Hk. }
  congruence.
Qed.

(** It is the last token of each Map key that is left. *)
Lemma lastWithKey_keepLast keyOf k l :
  lastWithKey keyOf k (keepLast keyOf l) = lastWithKey keyOf k l.
Proof.
  induction l as [|t l IH]; cbn [keepLast]; [reflexivity|].
  destruct (existsb (fun u => String.eqb (keyOf u) (keyOf t)) l) eqn:E.
  - rewrite IH, lastWithKey_cons.
    destruct (lastWithKey keyOf k l) as [x|] eqn:El; [reflexivity|].
    destruct (String.eqb (keyOf t) k) eqn:Ek; [|reflexivity].
    exfalso. apply String.eqb_eq in Ek. apply lastWithKey_None in El.
    apply existsb_exists in E. destruct E as (u & Hu & Hk).
    apply String.eqb_eq in Hk. apply El. rewrite <- Ek, <- Hk.
    apply in_map. exact Hu.
  - rewrite !lastWithKey_cons, IH. reflexivity.
Qed.

Lemma classify_keepLastRecord c :
  classify tokenKey [keepLastRecord tokenKey c] = classify tokenKey [c].
Proof.
  destruct (type c) eqn:Hc.
  - rewrite !classify_added; auto.
  - apply classify_modified_ext; auto; intros k;
      unfold beforeLookup, afterLookup;
      cbn [before after keepLastRecord orEmpty];
      rewrite !get_tokenMap; apply lastWithKey_keepLast.
  - rewrite !classify_deleted; auto.
Qed.

(** C10: on every change list the classifier returns a verdict and throws
    nothing, and the verdict is the strongest condition some record meets;
    a missing [before] or [after] counts as the empty sequence; and where
    several tokens of one side have the same Map key, the verdict is that
    of the list in which each side holds, for each Map key, the last of
    these tokens only: the map holds one entry for the key, with the last
    token written. *)
Theorem classifier_total (changes : list TokenChange) :
  determineVersionIncrementOutcome changes =
    Done (determineVersionIncrement changes) /\
  verdictMeets tokenKey changes (determineVersionIncrement changes) /\
  determineVersionIncrementOutcome changes =
    determineVersionIncrementOutcome (map withSequences changes) /\
  determineVersionIncrementOutcome changes =
    determineVersionIncrementOutcome
      (map (keepLastRecord tokenKey) changes) /\
  (forall tokens : list Token,
     NoDup (map tokenKey (keepLast tokenKey tokens)) /\
     NoDup (JsMap.keys (tokenMap tokenKey tokens)) /\
     forall k,
       JsMap.get k (tokenMap tokenKey tokens) =
       lastWithKey tokenKey k tokens).
Proof.
  split; [apply determineVersionIncrementOutcome_Done|].
  split; [apply verdictMeets_classify|].
  split; [|split].
  - rewrite !determineVersionIncrementOutcome_Done. f_equal.
    unfold determineVersionIncrement.
    rewrite (classify_highest tokenKey changes).
    rewrite (classify_highest tokenKey (map withSequences changes)), map_map.
    reflexivity.
  - rewrite !determineVersionIncrementOutcome_Done. f_equal.
    unfold determineVersionIncrement.
    rewrite (classify_highest tokenKey changes).
    rewrite (classify_highest tokenKey
               (map (keepLastRecord tokenKey) changes)), map_map.
    f_equal. apply map_ext. intros c. symmetry.
    apply classify_keepLastRecord.
  - intros tokens. split; [apply NoDup_keepLast|]. split.
    + apply JsMapFacts.NoDup_keys_ofEntries.
    + intros k. apply get_tokenMap.
Qed.

Lemma classifier_total_witness :
  determineVersionIncrementOutcome
    [mkChange "chains/1.json" modified None
       (Some [Examples.tokenTest; Examples.tokenTestUpdated;
              Examples.tokenTest]);
     mkChange "chains/5.json" modified None None] = Done (Some Minor) /\
  determineVersionIncrementOutcome
    (map (keepLastRecord tokenKey)
       [mkChange "chains/1.json" modified None
          (Some [Examples.tokenTest; Examples.tokenTestUpdated;
                 Examples.tokenTest]);
        mkChange "chains/5.json" modified None None]) =
    Done (Some Minor).
Proof.
  destruct (classifier_total
              [mkChange "chains/1.json" modified None
                 (Some [Examples.tokenTest; Examples.tokenTestUpdated;
                        Examples.tokenTest]);
               mkChange "chains/5.json" modified None None])
    as (H1 & _ & _ & H4 & _).
  split.
  - rewrite H1. reflexivity.
  - rewrite <- H4. rewrite H1. reflexivity.
Defined.

(** * Further properties of the classifier *)

(** ** Keys *)

Lemma numberToString_inj n m :
  numberToString n = numberToString m -> n = m.
Proof.
  unfold numberToString. intros H. apply DecimalZ.to_int_inj.
  assert (Hnn : forall z, Z.to_int z <> Decimal.Pos Decimal.Nil /\
                          Z.to_int z <> Decimal.Neg Decimal.Nil).
  { intros [|q|q]; cbn; split; try discriminate;
      intros [= E]; exact (Unsigned.to_uint_nonnil q E). }
  destruct (Hnn n) as [Hn1 Hn2]. destruct (Hnn m) as [Hm1 Hm2].
  pose proof (NilZero.isi _ Hn1 Hn2) as En.
  pose proof (NilZero.isi _ Hm1 Hm2) as Em.
  rewrite H in En. congruence.
Qed.

Lemma numberToString_not_undefined n : numberToString n <> "undefined".
Proof.
  unfold numberToString.
  destruct (Z.to_int n) as [d|d]; destruct d; cbn; discriminate.
Qed.

Lemma chainId_string_inj (c c' : option Z) :
  toTemplateString (ofOptNumber c) = toTemplateString (ofOptNumber c') ->
  c = c'.
Proof.
  destruct c as [n|], c' as [m|]; cbn; intros H.
  - f_equal. apply numberToString_inj. exact H.
  - exfalso. exact (numberToString_not_undefined n H).
  - exfalso. symmetry in H. exact (numberToString_not_undefined m H).
  - reflexivity.
Qed.

Lemma append_inv_head (s s1 s2 : string) :
  (s ++ s1)%string = (s ++ s2)%string -> s1 = s2.
Proof.
  induction s as [|ch s IH]; cbn; intros H; [exact H|].
  injection H as H. apply IH. exact H.
Qed.

(** Two strings without ["-"], each followed by ["-"] and a rest, are read
    back from the whole. *)
Lemma append_dash_inv (a a' r r' : string) :
  noDash a = true -> noDash a' = true ->
  (a ++ String "-" r)%string = (a' ++ String "-" r')%string ->
  a = a' /\ r = r'.
Proof.
  revert a'. induction a as [|ch a IH]; intros [|ch' a']; cbn;
    intros Ha Ha' H.
  - injection H as H. auto.
  - injection H as Hc H. subst ch'. cbn in Ha'. discriminate.
  - injection H as Hc H. subst ch. cbn in Ha. discriminate.
  - injection H as Hc H. subst ch'.
    apply andb_true_iff in Ha. apply andb_true_iff in Ha'.
    destruct (IH a' (proj2 Ha) (proj2 Ha') H) as [-> ->]. auto.
Qed.

(** Tokens with the same address and different chainIds have different
    keys. *)
Lemma tokenKey_chainId t t' :
  address t = address t' -> tokenKey t = tokenKey t' ->
  chainId t = chainId t'.
Proof.
  unfold tokenKey. intros -> H. apply append_inv_head in H.
  apply (append_inv_head "-") in H. apply chainId_string_inj. exact H.
Qed.

(** For addresses that hold no ["-"], the key determines the address and
    the chainId. *)
Lemma tokenKey_plain_inj (t t' : Token) :
  noDash (address t) = true -> noDash (address t') = true ->
  tokenKey t = tokenKey t' ->
  address t = address t' /\ chainId t = chainId t'.
Proof.
  unfold tokenKey. intros Ha Ha' H.
  change ("-" ++ ?x)%string with (String "-" x) in H.
  destruct (append_dash_inv _ _ _ _ Ha Ha' H) as [Haddr Hc].
  split; [exact Haddr|]. apply chainId_string_inj. exact Hc.
Qed.

(** X1: for addresses that hold no ["-"], the key of the build script
    determines the address and the chainId of the token. *)
Theorem tokenKey_injective (t t' : Token) :
  noDash (address t) = true -> noDash (address t') = true ->
  tokenKey t = tokenKey t' ->
  address t = address t' /\ chainId t = chainId t'.
Proof. exact (tokenKey_plain_inj t t'). Qed.

Lemma tokenKey_injective_witness :
  address Examples.tokenTest = address Examples.tokenTestUpdated /\
  chainId Examples.tokenTest = chainId Examples.tokenTestUpdated.
Proof.
  apply (tokenKey_injective Examples.tokenTest Examples.tokenTestUpdated);
    reflexivity.
Defined.

(** ** Records with removed, added and changed tokens *)

Section TokenLevel.

Variable keyOf : Token -> string.

(** A key of [before] is missing from [after] exactly when some token of
    [before] has a key that no token of [after] has. *)
Lemma Missing_tokens b a :
  Missing (fun k => JsMap.get k (tokenMap keyOf b))
          (fun k => JsMap.get k (tokenMap keyOf a)) <->
  exists t, In t b /\ ~ In (keyOf t) (map keyOf a).
Proof.
  unfold Missing. split.
  - intros (k & t & Hb & Ha). rewrite get_tokenMap in Hb, Ha.
    apply lastWithKey_Some in Hb. destruct Hb as [Hin <-].
    exists t. split; [exact Hin|]. apply lastWithKey_None. exact Ha.
  - intros (t & Hin & Hk).
    destruct (lastWithKey keyOf (keyOf t) b) as [u|] eqn:E.
    + exists (keyOf t), u. rewrite !get_tokenMap.
      split; [exact E|]. apply lastWithKey_None. exact Hk.
    + exfalso. apply lastWithKey_None in E. apply E. apply in_map. exact Hin.
Qed.

Lemma classify_modified_Minor c :
  type c = modified ->
  ~ Missing (beforeLookup keyOf c) (afterLookup keyOf c) ->
  ~ Matched idDiffers (beforeLookup keyOf c) (afterLookup keyOf c) ->
  Missing (afterLookup keyOf c) (beforeLookup keyOf c) ->
  classify keyOf [c] = Some Minor.
Proof.
  intros Hc H1 H2 H3.
  pose proof (recordMeets_classify keyOf c) as H.
  unfold recordMeets, MajorCondition, MinorCondition, PatchCondition in H.
  rewrite Hc in H.
  destruct (classify keyOf [c]) as [[]|].
  - exfalso. destruct H as [H|[_ [H|H]]]; [discriminate|tauto|tauto].
  - reflexivity.
  - exfalso. destruct H as (_ & H & _). apply H. right. auto.
  - exfalso. destruct H as (_ & H & _). apply H. right. auto.
Qed.

(** A record that alone yields major makes every list it is in yield
    major. *)
Lemma classify_Major_in cs c :
  In c cs -> classify keyOf [c] = Some Major -> classify keyOf cs = Some Major.
Proof.
  intros Hin Hc. apply in_split in Hin. destruct Hin as (cs1 & cs2 & ->).
  rewrite classify_app, classify_cons, Hc, highest_Major_l, highest_comm.
  apply highest_Major_l.
Qed.

Lemma priority_highest v w :
  priority (highest v w) = Nat.max (priority v) (priority w).
Proof. destruct v as [[]|], w as [[]|]; reflexivity. Qed.

End TokenLevel.

(** X2: a [modified] record in which some token of [before] has a key that no
    token of [after] has makes the whole change list yield major. *)
Theorem removed_token_yields_major
    (changes : list TokenChange) (c : TokenChange) (t : Token) :
  In c changes -> type c = modified ->
  In t (orEmpty (before c)) ->
  ~ In (tokenKey t) (map tokenKey (orEmpty (after c))) ->
  determineVersionIncrement changes = Some Major.
Proof.
  intros Hin Hc Ht Hk. apply (classify_Major_in tokenKey changes c Hin).
  apply classify_modified_Major; [exact Hc|].
  apply Missing_tokens. exists t. auto.
Qed.

Lemma removed_token_yields_major_witness :
  determineVersionIncrement
    [Examples.metadataRecord;
     mkChange "chains/1.json" modified
       (Some [Examples.tokenTest; Examples.tokenOld])
       (Some [Examples.tokenTest])] = Some Major.
Proof.
  apply (removed_token_yields_major _
           (mkChange "chains/1.json" modified
              (Some [Examples.tokenTest; Examples.tokenOld])
              (Some [Examples.tokenTest]))
           Examples.tokenOld).
  - right. left. reflexivity.
  - reflexivity.
  - right. left. reflexivity.
  - intros [H|[]]. discriminate H.
Defined.

(** X3: a single [modified] record whose [after] is its [before] with a
    block of tokens inserted, none of them with a key that is in [before],
    yields minor. *)
Theorem inserted_tokens_yield_minor
    (f : string) (l1 extra l2 : list Token) :
  extra <> [] ->
  (forall t, In t extra -> ~ In (tokenKey t) (map tokenKey (l1 ++ l2))) ->
  determineVersionIncrement
    [mkChange f modified (Some (l1 ++ l2)) (Some (l1 ++ extra ++ l2))] =
  Some Minor.
Proof.
  intros Hne Hfresh.
  assert (Hcases : forall k,
    lastWithKey tokenKey k (l1 ++ extra ++ l2) =
    lastWithKey tokenKey k (l1 ++ l2) \/
    (lastWithKey tokenKey k (l1 ++ l2) = None /\
     exists t, In t extra /\ tokenKey t = k)).
  { intros k. rewrite !lastWithKey_app.
    destruct (lastWithKey tokenKey k l2) as [u|] eqn:E2; [left; reflexivity|].
    destruct (lastWithKey tokenKey k extra) as [x|] eqn:Ex;
      [|left; reflexivity].
    right. apply lastWithKey_Some in Ex. destruct Ex as [Hx Hkx].
    split; [|exists x; auto].
    destruct (lastWithKey tokenKey k l1) as [y|] eqn:E1; [|reflexivity].
    exfalso. apply lastWithKey_Some in E1. destruct E1 as [Hy Hky].
    apply (Hfresh x Hx). rewrite Hkx, <- Hky.
    apply in_map, in_or_app. auto. }
  apply classify_modified_Minor; [reflexivity| | |];
    unfold Missing, Matched, beforeLookup, afterLookup;
    cbn [before after orEmpty].
  - intros (k & b & Hb & Ha). rewrite get_tokenMap in Hb, Ha.
    destruct (Hcases k) as [E|[E _]]; congruence.
  - intros (k & b & a & Hb & Ha & Hd). rewrite get_tokenMap in Hb, Ha.
    destruct (Hcases k) as [E|[E _]]; [|congruence].
    assert (b = a) by congruence. subst a.
    rewrite idDiffers_refl in Hd. discriminate.
  - destruct extra as [|t extra']; [congruence|].
    specialize (Hfresh t (or_introl eq_refl)).
    destruct (lastWithKey tokenKey (tokenKey t) (l1 ++ (t :: extra') ++ l2))
      as [u|] eqn:E.
    + exists (tokenKey t), u. rewrite !get_tokenMap.
      split; [exact E|]. apply lastWithKey_None. exact Hfresh.
    + exfalso. apply lastWithKey_None in E. apply E.
      apply in_map, in_or_app. right. left. reflexivity.
Qed.

Lemma inserted_tokens_yield_minor_witness :
  determineVersionIncrement
    [mkChange "chains/1.json" modified
       (Some ([Examples.tokenTest] ++ []))
       (Some ([Examples.tokenTest] ++ [Examples.tokenNew] ++ []))] =
  Some Minor.
Proof.
  apply (inserted_tokens_yield_minor "chains/1.json"
           [Examples.tokenTest] [Examples.tokenNew] []).
  - discriminate.
  - intros t [<-|[]] [H|[]]. discriminate H.
Defined.

(** X4: a change list with a record of type [added] yields major or minor,
    and one whose records are all of type [added] yields minor. *)
Theorem added_record_yields_at_least_minor
    (changes : list TokenChange) (c : TokenChange) :
  In c changes -> type c = added ->
  (determineVersionIncrement changes = Some Major \/
   determineVersionIncrement changes = Some Minor) /\
  (Forall (fun c' => type c' = added) changes ->
   determineVersionIncrement changes = Some Minor).
Proof.
  intros Hin Hc.
  pose proof (verdictMeets_classify tokenKey changes) as H.
  fold determineVersionIncrement in H.
  assert (Hmin : Exists (MinorCondition tokenKey) changes).
  { apply Exists_exists. exists c. split; [exact Hin|]. left. exact Hc. }
  split.
  - destruct (determineVersionIncrement changes) as [[]|];
      cbn [verdictMeets] in H; auto; exfalso; tauto.
  - intros Hall.
    assert (Hmaj : ~ Exists (MajorCondition tokenKey) changes).
    { intros Hex. apply Exists_exists in Hex.
      destruct Hex as (c' & Hin' & Hc').
      rewrite Forall_forall in Hall. specialize (Hall c' Hin').
      destruct Hc' as [Hd|[Hm _]]; congruence. }
    destruct (determineVersionIncrement changes) as [[]|];
      cbn [verdictMeets] in H; auto; exfalso; tauto.
Qed.

Lemma added_record_yields_at_least_minor_witness :
  determineVersionIncrement
    [mkChange "chains/999.json" added None (Some [Examples.tokenTest]);
     mkChange "chains/5.json" added None (Some [])] = Some Minor.
Proof.
  apply (added_record_yields_at_least_minor
           [mkChange "chains/999.json" added None (Some [Examples.tokenTest]);
            mkChange "chains/5.json" added None (Some [])]
           (mkChange "chains/5.json" added None (Some []))).
  - right. left. reflexivity.
  - reflexivity.
  - repeat constructor.
Defined.

(** X5: a single [modified] record in which one token keeps its address and
    chainId and differs in its name, symbol, logoURI or decimals, the other
    tokens being the same, yields patch, provided no later token of the
    sequence has the key of that token. *)
Theorem detail_change_yields_patch
    (f : string) (l1 : list Token) (t t' : Token) (l2 : list Token) :
  address t' = address t -> chainId t' = chainId t ->
  (name t' <> name t \/ symbol t' <> symbol t \/
   logoURI t' <> logoURI t \/ decimals t' <> decimals t) ->
  ~ In (tokenKey t) (map tokenKey l2) ->
  determineVersionIncrement
    [mkChange f modified (Some (l1 ++ t :: l2)) (Some (l1 ++ t' :: l2))] =
  Some Patch.
Proof.
  intros Haddr Hchain Hdiff Hfresh.
  assert (Hkey : tokenKey t' = tokenKey t)
    by (unfold tokenKey; rewrite Haddr, Hchain; reflexivity).
  assert (Hlast2 : lastWithKey tokenKey (tokenKey t) l2 = None)
    by (apply lastWithKey_None; exact Hfresh).
  assert (Hcases : forall k,
    lastWithKey tokenKey k (l1 ++ t :: l2) =
    lastWithKey tokenKey k (l1 ++ t' :: l2) \/
    (lastWithKey tokenKey k (l1 ++ t :: l2) = Some t /\
     lastWithKey tokenKey k (l1 ++ t' :: l2) = Some t')).
  { intros k. rewrite !lastWithKey_app, !lastWithKey_cons, Hkey.
    destruct (lastWithKey tokenKey k l2); [left; reflexivity|].
    destruct (String.eqb (tokenKey t) k); [right|left]; auto. }
  assert (Hid : idDiffers t t' = false)
    by (apply idDiffers_false; split; congruence).
  assert (Hdt : detailsDiffer t t' = true).
  { destruct (detailsDiffer t t') eqn:E; [reflexivity|].
    apply detailsDiffer_false in E. exfalso.
    destruct E as (E1 & E2 & E3 & E4).
    destruct Hdiff as [H|[H|[H|H]]]; apply H; congruence. }
  apply classify_modified_Patch; [reflexivity| | | |];
    unfold Missing, Matched, beforeLookup, afterLookup;
    cbn [before after orEmpty].
  - intros (k & b & Hb & Ha). rewrite get_tokenMap in Hb, Ha.
    destruct (Hcases k) as [E|[E1 E2]]; congruence.
  - intros (k & b & Ha & Hb). rewrite get_tokenMap in Hb, Ha.
    destruct (Hcases k) as [E|[E1 E2]]; congruence.
  - intros (k & b & a & Hb & Ha & Hd). rewrite get_tokenMap in Hb, Ha.
    destruct (Hcases k) as [E|[E1 E2]].
    + assert (b = a) by congruence. subst a.
      rewrite idDiffers_refl in Hd. discriminate.
    + assert (b = t) by congruence. assert (a = t') by congruence.
      subst a b. congruence.
  - exists (tokenKey t), t, t'. rewrite !get_tokenMap.
    rewrite !lastWithKey_app, !lastWithKey_cons, Hkey, Hlast2.
    rewrite String.eqb_refl. auto.
Qed.

Lemma detail_change_yields_patch_witness :
  determineVersionIncrement
    [mkChange "chains/1.json" modified
       (Some ([Examples.tokenOld] ++ Examples.tokenTest :: []))
       (Some ([Examples.tokenOld] ++ Examples.tokenTestUpdated :: []))] =
  Some Patch.
Proof.
  apply (detail_change_yields_patch "chains/1.json"
           [Examples.tokenOld] Examples.tokenTest Examples.tokenTestUpdated
           []).
  - reflexivity.
  - reflexivity.
  - left. discriminate.
  - intros [].
Defined.

(** X6: the classifier returns null exactly when every record is of type
    [modified] and, for every key, the last token with that key in [before]
    and the last one in [after] are the same (both absent included). *)
Theorem no_increment_iff_maps_agree (changes : list TokenChange) :
  determineVersionIncrement changes = None <->
  Forall (fun c =>
            type c = modified /\
            forall k,
              lastWithKey tokenKey k (orEmpty (before c)) =
              lastWithKey tokenKey k (orEmpty (after c))) changes.
Proof.
  split.
  - intros Hv.
    pose proof (verdictMeets_classify tokenKey changes) as H.
    fold determineVersionIncrement in H. rewrite Hv in H.
    cbn [verdictMeets] in H. destruct H as (Hmaj & Hmin & Hpat).
    apply Forall_forall. intros c Hin.
    assert (HM : ~ MajorCondition tokenKey c)
      by (intros X; apply Hmaj, Exists_exists; eauto).
    assert (HN : ~ MinorCondition tokenKey c)
      by (intros X; apply Hmin, Exists_exists; eauto).
    assert (HP : ~ PatchCondition tokenKey c)
      by (intros X; apply Hpat, Exists_exists; eauto).
    unfold MajorCondition in HM. unfold MinorCondition in HN.
    unfold PatchCondition in HP.
    destruct (type c) eqn:Hc; [exfalso; tauto| |exfalso; tauto].
    split; [reflexivity|]. intros k. rewrite <- !get_tokenMap.
    change (beforeLookup tokenKey c k = afterLookup tokenKey c k).
    destruct (beforeLookup tokenKey c k) as [b|] eqn:Eb,
             (afterLookup tokenKey c k) as [a|] eqn:Ea.
    + assert (Hid : idDiffers b a = false).
      { destruct (idDiffers b a) eqn:E; [|reflexivity]. exfalso.
        apply HM. right. split; [reflexivity|]. right.
        exists k, b, a. auto. }
      assert (Hdt : detailsDiffer b a = false).
      { destruct (detailsDiffer b a) eqn:E; [|reflexivity]. exfalso.
        apply HP. split; [reflexivity|]. exists k, b, a. auto. }
      apply idDiffers_false in Hid. apply detailsDiffer_false in Hdt.
      destruct b, a. cbn in *. f_equal. intuition congruence.
    + exfalso. apply HM. right. split; [reflexivity|]. left.
      exists k, b. auto.
    + exfalso. apply HN. right. split; [reflexivity|].
      exists k, a. auto.
    + reflexivity.
  - intros Hall. unfold determineVersionIncrement.
    rewrite classify_highest.
    induction Hall as [|c cs [Hc Hk] _ IH]; [reflexivity|].
    cbn [map fold_right]. rewrite IH.
    rewrite (classify_modified_same tokenKey c Hc); [reflexivity|].
    intros k. unfold beforeLookup, afterLookup. rewrite !get_tokenMap.
    apply Hk.
Qed.

Lemma no_increment_iff_maps_agree_witness :
  Forall (fun c =>
            type c = modified /\
            forall k,
              lastWithKey tokenKey k (orEmpty (before c)) =
              lastWithKey tokenKey k (orEmpty (after c)))
    [Examples.reorderedRecord].
Proof.
  apply (proj1 (no_increment_iff_maps_agree [Examples.reorderedRecord])).
  reflexivity.
Defined.

(** X7: a change list that holds every record of another one yields a
    verdict of at least the same priority: records never lower a verdict. *)
Theorem verdict_monotone (changes changes' : list TokenChange) :
  incl changes changes' ->
  priority (determineVersionIncrement changes) <=
  priority (determineVersionIncrement changes').
Proof.
  intros Hincl.
  assert (Hex : forall P : TokenChange -> Prop,
             Exists P changes -> Exists P changes').
  { intros P H. apply Exists_exists in H. destruct H as (c & Hin & Hc).
    apply Exists_exists. exists c. split; [apply Hincl; exact Hin|exact Hc]. }
  pose proof (verdictMeets_classify tokenKey changes) as H.
  pose proof (verdictMeets_classify tokenKey changes') as H'.
  fold determineVersionIncrement in H, H'.
  pose proof (Hex (MajorCondition tokenKey)) as E1.
  pose proof (Hex (MinorCondition tokenKey)) as E2.
  pose proof (Hex (PatchCondition tokenKey)) as E3.
  destruct (determineVersionIncrement changes) as [[]|],
           (determineVersionIncrement changes') as [[]|];
    cbn [verdictMeets priority] in *; try lia; exfalso; tauto.
Qed.

Lemma verdict_monotone_witness :
  priority (determineVersionIncrement [Examples.metadataRecord]) <=
  priority (determineVersionIncrement
              [Examples.additionRecord; Examples.metadataRecord]).
Proof.
  apply (verdict_monotone [Examples.metadataRecord]
           [Examples.additionRecord; Examples.metadataRecord]).
  intros c [<-|[]]. right. left. reflexivity.
Defined.

(** X8: when no address in a [modified] record holds a ["-"], the record
    alone yields major exactly when some token of [before] has a key that no
    token of [after] has: the test on the address and chainId of two tokens
    of the same key never fires. *)
Theorem major_iff_token_removed (c : TokenChange) :
  type c = modified ->
  (forall t, In t (orEmpty (before c) ++ orEmpty (after c)) ->
             noDash (address t) = true) ->
  (determineVersionIncrement [c] = Some Major <->
   exists t, In t (orEmpty (before c)) /\
             ~ In (tokenKey t) (map tokenKey (orEmpty (after c)))).
Proof.
  intros Hc Hplain. split.
  - intros Hv. pose proof (recordMeets_classify tokenKey c) as H.
    fold determineVersionIncrement in H. rewrite Hv in H.
    cbn [recordMeets] in H. destruct H as [H|[_ [H|H]]]; [congruence| |].
    + apply Missing_tokens in H. exact H.
    + exfalso. destruct H as (k & b & a & Hb & Ha & Hd).
      unfold beforeLookup in Hb. unfold afterLookup in Ha.
      rewrite get_tokenMap in Hb, Ha.
      apply lastWithKey_Some in Hb. apply lastWithKey_Some in Ha.
      destruct Hb as [Hinb Hkb]. destruct Ha as [Hina Hka].
      assert (Hinj : address b = address a /\ chainId b = chainId a).
      { apply tokenKey_plain_inj; [| |congruence];
          apply Hplain, in_or_app; auto. }
      apply idDiffers_false in Hinj. congruence.
  - intros Hex. apply classify_modified_Major; [exact Hc|].
    apply Missing_tokens. exact Hex.
Qed.

Lemma major_iff_token_removed_witness :
  determineVersionIncrement
    [mkChange "chains/1.json" modified
       (Some [Examples.tokenTest; Examples.tokenOld])
       (Some [Examples.tokenTest])] = Some Major.
Proof.
  apply (major_iff_token_removed
           (mkChange "chains/1.json" modified
              (Some [Examples.tokenTest; Examples.tokenOld])
              (Some [Examples.tokenTest]))).
  - reflexivity.
  - intros t [<-|[<-|[<-|[]]]]; reflexivity.
  - exists Examples.tokenOld. split; [right; left; reflexivity|].
    intros [H|[]]. discriminate H.
Defined.

(** X9: a single [modified] record in which the chainId of exactly one token
    differs between [before] and [after], the other tokens being the same,
    yields major, provided no other token of the record has the key the
    token had. *)
Theorem chainId_change_yields_major
    (f : string) (l1 : list Token) (t t' : Token) (l2 : list Token) :
  address t' = address t -> chainId t' <> chainId t ->
  ~ In (tokenKey t) (map tokenKey (l1 ++ l2)) ->
  determineVersionIncrement
    [mkChange f modified (Some (l1 ++ t :: l2)) (Some (l1 ++ t' :: l2))] =
  Some Major.
Proof.
  intros Haddr Hchain Hfresh.
  apply classify_modified_Major; [reflexivity|].
  apply Missing_tokens. cbn [before after orEmpty].
  exists t. split; [apply in_elt|].
  rewrite map_app, in_app_iff. cbn [map In].
  rewrite map_app, in_app_iff in Hfresh.
  intros [H|[H|H]]; [tauto| |tauto].
  apply Hchain. apply tokenKey_chainId; assumption.
Qed.

Lemma chainId_change_yields_major_witness :
  determineVersionIncrement
    [mkChange "chains/1.json" modified
       (Some ([] ++ mkToken "0x123" (Some 1%Z) "Test" "TEST" 18
                      (Some "test.png") :: []))
       (Some ([] ++ mkToken "0x123" (Some 137%Z) "Test" "TEST" 18
                      (Some "test.png") :: []))] = Some Major.
Proof.
  apply (chainId_change_yields_major "chains/1.json" []
           (mkToken "0x123" (Some 1%Z) "Test" "TEST" 18 (Some "test.png"))
           (mkToken "0x123" (Some 137%Z) "Test" "TEST" 18 (Some "test.png"))
           []).
  - reflexivity.
  - discriminate.
  - intros [].
Defined.

(** * Properties of the rest of the build script *)

(** ** Strings *)

Lemma string_app_assoc (a b c : string) :
  ((a ++ b) ++ c)%string = (a ++ (b ++ c))%string.
Proof. induction a as [|ch a IH]; cbn; [reflexivity|]. rewrite IH. reflexivity. Qed.

Lemma lacks_app ch (a b : string) :
  lacks ch (a ++ b)%string = lacks ch a && lacks ch b.
Proof.
  induction a as [|ch' a IH]; cbn; [reflexivity|].
  rewrite IH, andb_assoc. reflexivity.
Qed.

(** Reading a string up to the first occurrence of a character. *)
Lemma append_sep_inv ch (a a' r r' : string) :
  lacks ch a = true -> lacks ch a' = true ->
  (a ++ String ch r)%string = (a' ++ String ch r')%string ->
  a = a' /\ r = r'.
Proof.
  revert a'. induction a as [|c a IH]; intros [|c' a']; cbn;
    intros Ha Ha' H.
  - injection H as H. auto.
  - injection H as Hc H. subst c'. rewrite Ascii.eqb_refl in Ha'.
    discriminate.
  - injection H as Hc H. subst c. rewrite Ascii.eqb_refl in Ha.
    discriminate.
  - injection H as Hc H. subst c'.
    apply andb_true_iff in Ha. apply andb_true_iff in Ha'.
    destruct (IH a' (proj2 Ha) (proj2 Ha') H) as [-> ->]. auto.
Qed.

(** Reading a string from the last occurrence of a character. *)
Lemma append_sep_last_inv ch (a a' r r' : string) :
  lacks ch r = true -> lacks ch r' = true ->
  (a ++ String ch r)%string = (a' ++ String ch r')%string ->
  a = a' /\ r = r'.
Proof.
  intros Hr Hr'. revert a'.
  induction a as [|c a IH]; intros [|c' a']; cbn; intros H.
  - injection H as H. auto.
  - injection H as Hc H. subst c' r. exfalso.
    rewrite lacks_app in Hr. cbn in Hr. rewrite Ascii.eqb_refl in Hr.
    cbn in Hr. rewrite andb_false_r in Hr. discriminate.
  - injection H as Hc H. subst c r'. exfalso.
    rewrite lacks_app in Hr'. cbn in Hr'. rewrite Ascii.eqb_refl in Hr'.
    cbn in Hr'. rewrite andb_false_r in Hr'. discriminate.
  - injection H as Hc H. subst c'.
    destruct (IH a' H) as [-> ->]. auto.
Qed.

Lemma lacks_dot_digits d : lacks "." (NilEmpty.string_of_uint d) = true.
Proof. induction d; cbn; auto. Qed.

Lemma lacks_dot_numberToString n : lacks "." (numberToString n) = true.
Proof.
  unfold numberToString.
  destruct (Z.to_int n) as [d|d]; cbn; destruct d; cbn;
    auto using lacks_dot_digits.
Qed.

Lemma prefix_app (p s : string) : String.prefix p (p ++ s)%string = true.
Proof.
  induction p as [|ch p IH]; cbn; [destruct s; reflexivity|].
  destruct (Ascii.ascii_dec ch ch); [exact IH|congruence].
Qed.

Lemma jsSplit_nonempty sep s : jsSplit sep s <> [].
Proof.
  induction s as [|ch s IH]; cbn; [discriminate|].
  destruct (Ascii.eqb ch sep); [discriminate|].
  destruct (jsSplit sep s); [congruence|discriminate].
Qed.

Lemma jsSplit_lacks sep s : lacks sep s = true -> jsSplit sep s = [s].
Proof.
  induction s as [|ch s IH]; cbn; [reflexivity|].
  intros [Hc Hs]%andb_true_iff. apply negb_true_iff in Hc.
  rewrite Hc, (IH Hs). reflexivity.
Qed.

Lemma jsSplit_app sep a r :
  lacks sep a = true ->
  jsSplit sep (a ++ String sep r)%string = a :: jsSplit sep r.
Proof.
  induction a as [|ch a IH]; cbn.
  - intros _. rewrite Ascii.eqb_refl. reflexivity.
  - intros [Hc Hs]%andb_true_iff. apply negb_true_iff in Hc.
    rewrite Hc, (IH Hs). reflexivity.
Qed.

Lemma find_first {A : Type} (f : A -> bool) pre x post :
  Forall (fun a => f a = false) pre -> f x = true ->
  find f (pre ++ x :: post) = Some x.
Proof.
  intros Hpre Hx. induction Hpre as [|a pre Ha _ IH]; cbn.
  - rewrite Hx. reflexivity.
  - rewrite Ha. exact IH.
Qed.

(** ** The command line and the version step *)

(** X10: the value taken from the first [--git-changes=] argument is its text
    up to the next ["="]: a value without ["="] is taken whole, and what
    follows a later ["="] (the padding of base64 included) is dropped. *)
Theorem gitChanges_cut_at_equals
    (pre post : list string) (v w : string) :
  Forall (fun a => String.prefix "--git-changes=" a = false) pre ->
  lacks "=" v = true ->
  gitChanges (pre ++ ("--git-changes=" ++ v)%string :: post) = Some v /\
  gitChanges (pre ++ ("--git-changes=" ++ v ++ "=" ++ w)%string :: post) =
    Some v.
Proof.
  intros Hpre Hv. unfold gitChanges, gitChangesArg. split.
  - rewrite (find_first _ pre _ post Hpre (prefix_app _ _)).
    change ("--git-changes=" ++ v)%string
      with ("--git-changes" ++ String "=" v)%string.
    rewrite jsSplit_app by reflexivity.
    rewrite (jsSplit_lacks _ _ Hv). reflexivity.
  - rewrite (find_first _ pre _ post Hpre (prefix_app _ _)).
    change ("--git-changes=" ++ v ++ "=" ++ w)%string
      with ("--git-changes" ++ String "=" (v ++ String "=" w))%string.
    rewrite jsSplit_app by reflexivity.
    rewrite (jsSplit_app _ _ _ Hv). reflexivity.
Qed.

Lemma gitChanges_cut_at_equals_witness :
  gitChanges ["node"; "build.ts"; "--increment-version";
              ("--git-changes=" ++ "W10" ++ "=" ++ "")%string] = Some "W10".
Proof.
  apply (gitChanges_cut_at_equals
           ["node"; "build.ts"; "--increment-version"] [] "W10" "").
  - repeat constructor.
  - reflexivity.
Defined.

(** X11: without [--increment-version], without a [--git-changes=] argument,
    or when the argument does not decode, the version step leaves the
    template and the two files as they are. *)
Theorem versionStep_without_changes
    (Other : Type) (decodeChanges : string -> option (list TokenChange))
    (argv : list string) (currentTimestamp : string) (st : Store Other) :
  shouldIncrementVersion argv = false \/
  gitChangesArg argv = None \/
  decodeChanges (orEmptyString (gitChanges argv)) = None ->
  versionStep Other decodeChanges argv currentTimestamp st =
  (baseTokenlist st, st).
Proof.
  unfold versionStep, incrementVersion. intros [H|[H|H]].
  - rewrite H. reflexivity.
  - unfold gitChanges. rewrite H. cbn.
    destruct (shouldIncrementVersion argv); reflexivity.
  - unfold parseGitChanges. rewrite H.
    destruct (shouldIncrementVersion argv); [|reflexivity].
    destruct (String.eqb _ ""); reflexivity.
Qed.

Lemma versionStep_without_changes_witness :
  versionStep unit (fun _ => None)
    ["node"; "build.ts"; "--increment-version"; "--git-changes=%%%"]
    "2026-01-01T00:00:00.000Z"
    (mkStore unit
       (mkTemplate unit (mkVersion 1 4 2) "2025-01-01T00:00:00.000Z" tt)
       "1.4.2") =
  (mkTemplate unit (mkVersion 1 4 2) "2025-01-01T00:00:00.000Z" tt,
   mkStore unit
     (mkTemplate unit (mkVersion 1 4 2) "2025-01-01T00:00:00.000Z" tt)
     "1.4.2").
Proof.
  apply (versionStep_without_changes unit (fun _ => None)).
  right. right. reflexivity.
Defined.

(** X12: a build never lowers the version of the template, when the three
    numbers of the version are integers from 0 to below 2^53: with
    [--increment-version] and a verdict other than null the version becomes
    strictly greater (by major, then minor, then patch), and otherwise the
    template and the two files are left as they are. *)
Theorem version_never_decreases
    (Other : Type) (flag : bool) (changes : list TokenChange)
    (currentTimestamp : string) (st : Store Other) :
  let st' := snd (incrementVersion flag changes currentTimestamp st) in
  (safeVersion (version (baseTokenlist st)) ->
   flag = true -> determineVersionIncrement changes <> None ->
   versionLt (version (baseTokenlist st)) (version (baseTokenlist st'))) /\
  (flag = false \/ determineVersionIncrement changes = None -> st' = st).
Proof.
  unfold incrementVersion, applyIncrement. cbn zeta. split.
  - intros (Hmajor & Hminor & Hpatch) -> Hv.
    destruct (determineVersionIncrement changes) as [[]|];
      [| | |congruence];
      cbn [snd baseTokenlist version newVersion];
      unfold versionLt; cbn [major minor patch];
      rewrite numberAdd_safe by assumption; lia.
  - intros [Hf | Hv]; [rewrite Hf; reflexivity|].
    rewrite Hv. destruct flag; reflexivity.
Qed.

Lemma version_never_decreases_witness :
  versionLt (mkVersion 1 4 2) (mkVersion 1 5 0).
Proof.
  apply (proj1 (version_never_decreases unit true
                  [Examples.metadataRecord; Examples.additionRecord]
                  "2026-01-01T00:00:00.000Z"
                  (mkStore unit
                     (mkTemplate unit (mkVersion 1 4 2)
                        "2025-01-01T00:00:00.000Z" tt)
                     "1.4.2"))).
  - unfold safeVersion, safeNumber. cbn. lia.
  - reflexivity.
  - discriminate.
Defined.

(** X13: for a version whose three numbers are integers from 0 to below
    2^53, the version string written to [package.json] after an increment
    is that of the version written to the template; and two such versions,
    or the versions an increment makes of them, that differ have different
    version strings. *)
Theorem versionString_determines_version :
  (forall (Other : Type) inc currentTimestamp (st : Store Other),
     let st' := snd (applyIncrement (Some inc) currentTimestamp st) in
     safeVersion (version (baseTokenlist st)) ->
     packageVersion st' = versionString (version (baseTokenlist st')) /\
     (major (version (baseTokenlist st')) <= 2 ^ 53)%Z /\
     (minor (version (baseTokenlist st')) <= 2 ^ 53)%Z /\
     (patch (version (baseTokenlist st')) <= 2 ^ 53)%Z) /\
  (forall v w,
     (0 <= major v <= 2 ^ 53)%Z -> (0 <= minor v <= 2 ^ 53)%Z ->
     (0 <= patch v <= 2 ^ 53)%Z ->
     (0 <= major w <= 2 ^ 53)%Z -> (0 <= minor w <= 2 ^ 53)%Z ->
     (0 <= patch w <= 2 ^ 53)%Z ->
     v <> w -> versionString v <> versionString w).
Proof.
  split.
  - intros Other inc currentTimestamp st st' (Hmajor & Hminor & Hpatch).
    split; [reflexivity|]. subst st'. unfold safeNumber in *.
    destruct inc;
      cbn [snd applyIncrement baseTokenlist version newVersion
           major minor patch];
      rewrite ?numberAdd_safe by assumption; lia.
  - intros [a b c] [a' b' c'] _ _ _ _ _ _ Hne H. apply Hne.
    unfold versionString in H. cbn [major minor patch] in H.
    change ("." ++ ?x)%string with (String "." x) in H.
    apply append_sep_inv in H; try apply lacks_dot_numberToString.
    destruct H as [Ha H].
    apply append_sep_inv in H; try apply lacks_dot_numberToString.
    destruct H as [Hb Hc].
    apply numberToString_inj in Ha, Hb, Hc. congruence.
Qed.

Lemma versionString_determines_version_witness :
  versionString (mkVersion 1 50 0) <> versionString (mkVersion 15 0 0).
Proof.
  apply (proj2 versionString_determines_version
           (mkVersion 1 50 0) (mkVersion 15 0 0));
    cbn; try lia; discriminate.
Defined.

(** ** File names *)

Lemma digits_then_json ds :
  allDigits ds = true ->
  takeDigits (ds ++ ".json")%string = ds /\
  dropDigits (ds ++ ".json")%string = ".json".
Proof.
  induction ds as [|ch ds IH]; cbn [allDigits append takeDigits dropDigits].
  - intros _. split; reflexivity.
  - intros [Hc Hds]%andb_true_iff. rewrite Hc.
    destruct (IH Hds) as [-> ->]. split; reflexivity.
Qed.

Lemma take_drop_digits s : (takeDigits s ++ dropDigits s)%string = s.
Proof.
  induction s as [|ch s IH]; cbn; [reflexivity|].
  destruct (isDigit ch); cbn; [rewrite IH|]; reflexivity.
Qed.

Lemma allDigits_takeDigits s : allDigits (takeDigits s) = true.
Proof.
  induction s as [|ch s IH]; cbn; [reflexivity|].
  destruct (isDigit ch) eqn:E; cbn; [rewrite E; exact IH|reflexivity].
Qed.

Lemma stripPrefix_sound p s r :
  stripPrefix p s = Some r -> s = (p ++ r)%string.
Proof.
  revert s. induction p as [|ch p IH]; intros s; cbn.
  - intros [= ->]. reflexivity.
  - destruct s as [|ch' s]; [discriminate|].
    destruct (Ascii.eqb ch ch') eqn:E; [|discriminate].
    apply Ascii.eqb_eq in E. subst ch'. intros H.
    rewrite (IH s H). reflexivity.
Qed.

Lemma stripPrefix_app p s : stripPrefix p (p ++ s)%string = Some s.
Proof.
  induction p as [|ch p IH]; cbn; [reflexivity|].
  rewrite Ascii.eqb_refl. exact IH.
Qed.

Lemma chainDigitsHere_sound s ds :
  chainDigitsHere s = Some ds ->
  s = ("chains/" ++ ds ++ ".json")%string /\
  allDigits ds = true /\ ds <> ""%string.
Proof.
  unfold chainDigitsHere.
  destruct (stripPrefix "chains/" s) as [rest|] eqn:E; [|discriminate].
  apply stripPrefix_sound in E.
  destruct (negb (String.eqb (takeDigits rest) "")
            && String.eqb (dropDigits rest) ".json") eqn:C; [|discriminate].
  intros [= <-]. apply andb_true_iff in C. destruct C as [C1 C2].
  apply negb_true_iff, String.eqb_neq in C1. apply String.eqb_eq in C2.
  split; [|split; [apply allDigits_takeDigits|exact C1]].
  rewrite E. f_equal. rewrite <- C2. symmetry. apply take_drop_digits.
Qed.

Lemma chainDigitsHere_complete ds :
  allDigits ds = true -> ds <> ""%string ->
  chainDigitsHere ("chains/" ++ ds ++ ".json")%string = Some ds.
Proof.
  intros Hds Hne. unfold chainDigitsHere. rewrite stripPrefix_app.
  destruct (digits_then_json ds Hds) as [-> ->].
  apply String.eqb_neq in Hne. rewrite Hne. reflexivity.
Qed.

Lemma matchChainFile_here f ds :
  chainDigitsHere f = Some ds -> matchChainFile f = Some ds.
Proof. destruct f; cbn [matchChainFile]; intros ->; reflexivity. Qed.

Lemma matchChainFile_sound f ds :
  matchChainFile f = Some ds ->
  exists p, f = (p ++ "chains/" ++ ds ++ ".json")%string /\
            allDigits ds = true /\ ds <> ""%string.
Proof.
  induction f as [|ch f IH]; cbn [matchChainFile].
  - destruct (chainDigitsHere "") as [ds'|] eqn:E; [|discriminate].
    intros [= <-]. exists ""%string. apply chainDigitsHere_sound. exact E.
  - destruct (chainDigitsHere (String ch f)) as [ds'|] eqn:E.
    + intros [= <-]. exists ""%string. apply chainDigitsHere_sound. exact E.
    + intros H. destruct (IH H) as (p & -> & Hds & Hne).
      exists (String ch p). auto.
Qed.

Lemma isDigit_not_slash ch : isDigit ch = true -> Ascii.eqb ch "/" = false.
Proof.
  intros H. destruct (Ascii.eqb ch "/") eqn:E; [|reflexivity].
  apply Ascii.eqb_eq in E. subst ch. discriminate H.
Qed.

Lemma lacks_slash_digits ds : allDigits ds = true -> lacks "/" ds = true.
Proof.
  induction ds as [|ch ds IH]; cbn; [reflexivity|].
  intros [Hc Hds]%andb_true_iff.
  rewrite (isDigit_not_slash ch Hc), (IH Hds). reflexivity.
Qed.

(** The name has a chain id only if it ends in ["/"], digits and
    [".json"]. *)
Lemma matchChainFile_base base ds :
  lacks "/" base = true ->
  matchChainFile ("chains/" ++ base ++ ".json")%string = Some ds ->
  base = ds.
Proof.
  intros Hbase H. apply matchChainFile_sound in H.
  destruct H as (p & Heq & Hds & _).
  change ("chains/" ++ base ++ ".json")%string
    with ("chains" ++ (String "/" base ++ ".json"))%string in Heq.
  change (p ++ "chains/" ++ ds ++ ".json")%string
    with (p ++ ("chains" ++ (String "/" ds ++ ".json")))%string in Heq.
  rewrite <- !string_app_assoc in Heq.
  apply append_inv_tail in Heq.
  apply append_sep_last_inv in Heq;
    [tauto|exact Hbase|apply lacks_slash_digits; exact Hds].
Qed.

(** For a name [chains/<base>.json] as [glob] gives it (no ["/"] in the
    base), the chain id is defined exactly when the base is a non-empty
    string of digits, and it is then what [parseInt] makes of them. *)
Lemma chainIdOfFile_base (base : string) :
  lacks "/" base = true ->
  chainIdOfFile ("chains/" ++ base ++ ".json")%string =
  if allDigits base && negb (String.eqb base "")
  then Some (parseInt base) else None.
Proof.
  intros Hbase. unfold chainIdOfFile.
  destruct (allDigits base && negb (String.eqb base "")) eqn:C.
  - apply andb_true_iff in C. destruct C as [C1 C2].
    apply negb_true_iff, String.eqb_neq in C2.
    rewrite (matchChainFile_here _ base
               (chainDigitsHere_complete base C1 C2)).
    reflexivity.
  - destruct (matchChainFile ("chains/" ++ base ++ ".json")%string)
      as [ds|] eqn:E; [|reflexivity].
    exfalso. pose proof (matchChainFile_base base ds Hbase E) as ->.
    apply matchChainFile_sound in E. destruct E as (_ & _ & Hds & Hne).
    apply String.eqb_neq in Hne. rewrite Hds, Hne in C. discriminate.
Qed.

Lemma parseDigits_nonneg digits acc :
  (0 <= acc)%Z -> (0 <= parseDigits acc digits)%Z.
Proof.
  revert acc. induction digits as [|ch rest IH]; intros acc Hacc;
    cbn [parseDigits]; [exact Hacc|].
  apply IH. lia.
Qed.

(** Up to 2^53 [parseInt] gives the integer that the digits write. *)
Lemma parseInt_exact digits :
  (parseDigits 0 digits <= 2 ^ 53)%Z ->
  parseInt digits = parseDigits 0 digits.
Proof.
  intros H. unfold parseInt. apply roundToDouble_exact.
  pose proof (parseDigits_nonneg digits 0 (Z.le_refl 0)). lia.
Qed.

(** Above 2^53 [parseInt] rounds: the file [chains/9007199254740993.json]
    is that of the chain 9007199254740992. *)
Example chainIdOfFile_rounds :
  chainIdOfFile "chains/9007199254740993.json" = Some 9007199254740992%Z.
Proof. vm_compute. reflexivity. Qed.

(** X14: for a name [chains/<base>.json] as [glob] gives it (no ["/"] in the
    base), the chain id is defined exactly when the base is a non-empty
    string of digits, and it is then the number these digits write, when
    this number is at most 2^53. *)
Theorem chainIdOfFile_glob_name (base : string) :
  lacks "/" base = true ->
  (chainIdOfFile ("chains/" ++ base ++ ".json")%string <> None <->
   allDigits base = true /\ base <> ""%string) /\
  (allDigits base = true -> base <> ""%string ->
   (parseDigits 0 base <= 2 ^ 53)%Z ->
   chainIdOfFile ("chains/" ++ base ++ ".json")%string =
   Some (parseDigits 0 base)).
Proof.
  intros Hbase. rewrite (chainIdOfFile_base base Hbase). split.
  - destruct (allDigits base); cbn [andb].
    + destruct (String.eqb_spec base ""); cbn [negb]; split;
        try congruence; try tauto; intros _; split; congruence.
    + split; [congruence|intros [H _]; discriminate].
  - intros Hd Hne Hle. rewrite Hd. cbn [andb].
    apply String.eqb_neq in Hne. rewrite Hne. cbn [negb].
    rewrite (parseInt_exact base Hle). reflexivity.
Qed.

Lemma chainIdOfFile_glob_name_witness :
  chainIdOfFile ("chains/" ++ "137" ++ ".json")%string = Some 137%Z.
Proof.
  apply (proj2 (chainIdOfFile_glob_name "137" eq_refl)).
  - reflexivity.
  - discriminate.
  - vm_compute. discriminate.
Defined.

Lemma parseDigits_acc d acc :
  parseDigits (Z.pos acc) (NilEmpty.string_of_uint d) =
  Z.pos (Pos.of_uint_acc d acc).
Proof.
  revert acc.
  induction d as [|d IH|d IH|d IH|d IH|d IH|d IH|d IH|d IH|d IH|d IH];
    intros acc;
    cbn [NilEmpty.string_of_uint parseDigits Pos.of_uint_acc];
    [reflexivity|..]; rewrite <- IH; f_equal;
    match goal with
    | |- context [Z.of_nat ?n] =>
        let v := eval vm_compute in (Z.of_nat n) in
        change (Z.of_nat n) with v
    end; lia.
Qed.

Lemma parseDigits_zero d :
  parseDigits 0 (NilEmpty.string_of_uint d) = Z.of_N (Pos.of_uint d).
Proof.
  induction d as [|d IH|d IH|d IH|d IH|d IH|d IH|d IH|d IH|d IH|d IH];
    cbn [NilEmpty.string_of_uint parseDigits Pos.of_uint];
    [reflexivity|exact IH|..]; apply parseDigits_acc.
Qed.

Lemma allDigits_string_of_uint d :
  allDigits (NilEmpty.string_of_uint d) = true.
Proof. induction d; cbn; auto. Qed.

Lemma numberToString_pos p :
  numberToString (Z.pos p) = NilEmpty.string_of_uint (Pos.to_uint p).
Proof.
  unfold numberToString. cbn.
  pose proof (Unsigned.to_uint_nonnil p) as H.
  destruct (Pos.to_uint p); [congruence|reflexivity..].
Qed.

Lemma numberToString_digits n :
  (0 <= n)%Z ->
  allDigits (numberToString n) = true /\
  numberToString n <> ""%string /\
  parseDigits 0 (numberToString n) = n.
Proof.
  destruct n as [|p|p]; intros Hn; [| |lia].
  - repeat split. discriminate.
  - rewrite numberToString_pos. split; [apply allDigits_string_of_uint|].
    split.
    + pose proof (Unsigned.to_uint_nonnil p) as H.
      destruct (Pos.to_uint p); [congruence|discriminate..].
    + rewrite parseDigits_zero, Unsigned.of_to. reflexivity.
Qed.

(** X15: the file of a chain is read back as that chain: for a chain id
    from 0 to 2^53, the name [chains/<id>.json] has that chain id. *)
Theorem chain_file_round_trip (n : Z) :
  (0 <= n <= 2 ^ 53)%Z ->
  chainIdOfFile ("chains/" ++ numberToString n ++ ".json")%string = Some n.
Proof.
  intros [Hn Hle]. destruct (numberToString_digits n Hn) as (Hd & Hne & Hp).
  unfold chainIdOfFile.
  rewrite (matchChainFile_here _ _ (chainDigitsHere_complete _ Hd Hne)).
  cbn [option_map]. rewrite parseInt_exact; rewrite Hp; [reflexivity|exact Hle].
Qed.

Lemma chain_file_round_trip_witness :
  chainIdOfFile ("chains/" ++ numberToString 42161 ++ ".json")%string =
  Some 42161%Z.
Proof. apply (chain_file_round_trip 42161). cbn. lia. Defined.

Lemma matchFileName_app p s :
  matchFileName s = true -> matchFileName (p ++ s)%string = true.
Proof.
  intros H. induction p as [|ch p IH]; cbn [append matchFileName];
    [exact H|].
  rewrite IH. apply orb_true_r.
Qed.

Lemma matchFileName_digit d :
  isDigit d = true -> matchFileName (String d ".json") = true.
Proof.
  intros H. cbn [matchFileName digitsJsonHere]. rewrite H. reflexivity.
Qed.

Lemma allDigits_app a b :
  allDigits (a ++ b)%string = allDigits a && allDigits b.
Proof.
  induction a as [|ch a IH]; cbn; [reflexivity|].
  rewrite IH, andb_assoc. reflexivity.
Qed.

Lemma keyedFiles_None files1 f files2 :
  chainIdOfFile f = None -> keyedFiles (files1 ++ f :: files2) = None.
Proof.
  intros H. induction files1 as [|g files1 IH]; cbn [app keyedFiles].
  - rewrite H. reflexivity.
  - rewrite IH. destruct (chainIdOfFile g); reflexivity.
Qed.

Lemma checkFileNames_Done files :
  Forall (fun f => matchFileName f = true) files ->
  checkFileNames files = Done tt.
Proof.
  induction 1 as [|f files Hf _ IH]; cbn [checkFileNames]; [reflexivity|].
  rewrite Hf. exact IH.
Qed.

(** X16: a name [chains/<base>.json] whose base ends in a digit without being
    all digits passes the check of the names and has no chain id: when all
    names pass the check and one of them is such a name, the build ends in a
    [TypeError], not in the exit with [EX_DATAERR]. *)
Theorem unparsed_name_throws
    (readTokens : string -> option (list FileToken))
    (files1 files2 : list string) (b : string) (d : ascii) :
  isDigit d = true -> lacks "/" b = true -> allDigits b = false ->
  Forall (fun f => matchFileName f = true) files1 ->
  Forall (fun f => matchFileName f = true) files2 ->
  let f := ("chains/" ++ (b ++ String d "") ++ ".json")%string in
  matchFileName f = true /\
  chainIdOfFile f = None /\
  buildTokens readTokens (files1 ++ f :: files2) = TypeError.
Proof.
  intros Hd Hb Hnd H1 H2 f.
  assert (Hname : matchFileName f = true).
  { unfold f. rewrite string_app_assoc, <- string_app_assoc.
    apply matchFileName_app, matchFileName_digit. exact Hd. }
  assert (Hid : chainIdOfFile f = None).
  { unfold f. rewrite chainIdOfFile_base.
    - rewrite allDigits_app, Hnd. reflexivity.
    - rewrite lacks_app, Hb. cbn.
      rewrite (isDigit_not_slash d Hd). reflexivity. }
  split; [exact Hname|]. split; [exact Hid|].
  unfold buildTokens. rewrite checkFileNames_Done.
  - cbn [andThen]. rewrite (keyedFiles_None _ _ _ Hid). reflexivity.
  - apply Forall_app. split; [exact H1|]. constructor; assumption.
Qed.

Lemma unparsed_name_throws_witness :
  buildTokens (fun _ => Some [])
    (["chains/1.json"] ++
     ("chains/" ++ ("v" ++ String "2" "") ++ ".json")%string ::
     ["chains/10.json"]) = TypeError.
Proof.
  apply (unparsed_name_throws (fun _ => Some [])
           ["chains/1.json"] ["chains/10.json"] "v" "2"%char);
    try reflexivity; repeat constructor.
Defined.

Lemma allDigits_last ds :
  allDigits ds = true -> ds <> ""%string ->
  exists ds0 d, ds = (ds0 ++ String d "")%string /\ isDigit d = true.
Proof.
  induction ds as [|ch ds IH]; [congruence|].
  cbn [allDigits]. intros [Hc Hds]%andb_true_iff _.
  destruct ds as [|ch' ds'].
  - exists ""%string, ch. auto.
  - destruct (IH Hds) as (ds0 & d & E & Hd); [discriminate|].
    exists (String ch ds0), d. cbn [append]. rewrite <- E. auto.
Qed.

Lemma chainIdOfFile_matchFileName f n :
  chainIdOfFile f = Some n -> matchFileName f = true.
Proof.
  unfold chainIdOfFile.
  destruct (matchChainFile f) as [ds|] eqn:E; [|discriminate]. intros _.
  apply matchChainFile_sound in E. destruct E as (p & -> & Hds & Hne).
  destruct (allDigits_last ds Hds Hne) as (ds0 & d & -> & Hd).
  change (p ++ "chains/" ++ (ds0 ++ String d "") ++ ".json")%string
    with (p ++ ("chains/" ++ ((ds0 ++ String d "") ++ ".json")))%string.
  apply matchFileName_app, matchFileName_app.
  rewrite string_app_assoc.
  apply matchFileName_app, matchFileName_digit. exact Hd.
Qed.

(** X17: a name that has a chain id passes the check of the names. *)
Theorem chain_id_implies_name_check (f : string) (n : Z) :
  chainIdOfFile f = Some n -> matchFileName f = true.
Proof. exact (chainIdOfFile_matchFileName f n). Qed.

Lemma chain_id_implies_name_check_witness :
  matchFileName "chains/137.json" = true.
Proof.
  apply (chain_id_implies_name_check "chains/137.json" 137). reflexivity.
Defined.

(** ** Logos *)

Lemma prefix_stripPrefix p s :
  String.prefix p s = true <-> exists rest, stripPrefix p s = Some rest.
Proof.
  revert s. induction p as [|ch p IH]; intros s.
  - split; [intros _; exists s; reflexivity|]. intros _.
    destruct s; reflexivity.
  - destruct s as [|ch' s]; simpl.
    + split; [discriminate|intros [? [=]]].
    + destruct (Ascii.ascii_dec ch ch') as [E|Hne].
      * subst ch'. rewrite Ascii.eqb_refl. apply IH.
      * apply Ascii.eqb_neq in Hne. rewrite Hne.
        split; [discriminate|intros [? [=]]].
Qed.

Lemma replaceLeadingDots_no_dots uri :
  String.prefix ".." (replaceLeadingDots uri) = false.
Proof.
  unfold replaceLeadingDots.
  destruct (stripPrefix ".." uri) as [rest|] eqn:E; [reflexivity|].
  destruct (String.prefix ".." uri) eqn:P; [|reflexivity].
  apply prefix_stripPrefix in P. destruct P as [rest P]. congruence.
Qed.

(** X18: the rewriting of a logo replaces a leading [..] by the address of
    the repository and leaves any other logo as it is; its result never
    starts with [..], so rewriting twice is rewriting once. *)
Theorem replaceLeadingDots_idempotent (uri rest : string) :
  replaceLeadingDots (".." ++ rest) = (githubRaw ++ rest)%string /\
  (String.prefix ".." uri = false -> replaceLeadingDots uri = uri) /\
  String.prefix ".." (replaceLeadingDots uri) = false /\
  replaceLeadingDots (replaceLeadingDots uri) = replaceLeadingDots uri.
Proof.
  assert (Hkeep : forall s, String.prefix ".." s = false ->
                            replaceLeadingDots s = s).
  { intros s Hs. unfold replaceLeadingDots.
    destruct (stripPrefix ".." s) as [r|] eqn:E; [|reflexivity].
    assert (String.prefix ".." s = true)
      by (apply prefix_stripPrefix; eauto).
    congruence. }
  split; [reflexivity|]. split; [apply Hkeep|].
  split; [apply replaceLeadingDots_no_dots|].
  apply Hkeep, replaceLeadingDots_no_dots.
Qed.

Lemma replaceLeadingDots_idempotent_witness :
  replaceLeadingDots "https://example.org/logo.png" =
  "https://example.org/logo.png".
Proof.
  apply (proj1 (proj2 (replaceLeadingDots_idempotent
                         "https://example.org/logo.png" ""))).
  reflexivity.
Defined.

(** ** Sorting the files *)

Lemma compareChains_le x y :
  (compareChains x y <=? 0)%Z = (x <=? y)%Z.
Proof.
  unfold compareChains. rewrite Z.gtb_ltb.
  destruct (Z.ltb_spec y x), (Z.ltb_spec x y), (Z.leb_spec x y);
    cbn; try reflexivity; lia.
Qed.

Lemma insertFile_perm x l : Permutation (insertFile x l) (x :: l).
Proof.
  induction l as [|y l IH]; cbn [insertFile]; [reflexivity|].
  destruct (compareChains (fst x) (fst y) <=? 0)%Z; [reflexivity|].
  rewrite IH. apply perm_swap.
Qed.

Lemma sortFiles_perm l : Permutation (sortFiles l) l.
Proof.
  induction l as [|x l IH]; cbn [sortFiles fold_right]; [reflexivity|].
  fold (sortFiles l). rewrite insertFile_perm, IH. reflexivity.
Qed.

Lemma insertFile_sorted x l :
  StronglySorted (fun a b : Z * string => (fst a <= fst b)%Z) l ->
  StronglySorted (fun a b : Z * string => (fst a <= fst b)%Z)
    (insertFile x l).
Proof.
  induction 1 as [|y l Hl IH Hy]; cbn [insertFile].
  - constructor; constructor.
  - rewrite compareChains_le.
    destruct (Z.leb_spec (fst x) (fst y)) as [Hle|Hlt].
    + constructor; [constructor; assumption|].
      constructor; [exact Hle|].
      rewrite Forall_forall in Hy |- *. intros z Hz.
      specialize (Hy z Hz). cbn in *. lia.
    + constructor; [exact IH|].
      rewrite Forall_forall in Hy |- *. intros z Hz.
      apply (Permutation_in _ (insertFile_perm x l)) in Hz.
      destruct Hz as [<-|Hz]; [cbn; lia|apply Hy; exact Hz].
Qed.

Lemma sortFiles_sorted l :
  StronglySorted (fun a b : Z * string => (fst a <= fst b)%Z) (sortFiles l).
Proof.
  induction l as [|x l IH]; cbn [sortFiles fold_right]; [constructor|].
  apply insertFile_sorted. exact IH.
Qed.

(** The sort is stable: the files of one chain id stay in their order. *)
Lemma insertFile_filter n x l :
  filter (fun kf : Z * string => (fst kf =? n)%Z) (insertFile x l) =
  filter (fun kf : Z * string => (fst kf =? n)%Z) (x :: l).
Proof.
  induction l as [|y l IH]; cbn [insertFile]; [reflexivity|].
  rewrite compareChains_le.
  destruct (Z.leb_spec (fst x) (fst y)) as [Hle|Hlt]; [reflexivity|].
  cbn [filter] in *. rewrite IH.
  destruct (Z.eqb_spec (fst x) n), (Z.eqb_spec (fst y) n);
    try reflexivity; lia.
Qed.

Lemma sortFiles_filter n l :
  filter (fun kf : Z * string => (fst kf =? n)%Z) (sortFiles l) =
  filter (fun kf : Z * string => (fst kf =? n)%Z) l.
Proof.
  induction l as [|x l IH]; cbn [sortFiles fold_right]; [reflexivity|].
  fold (sortFiles l). rewrite insertFile_filter. cbn [filter].
  rewrite IH. reflexivity.
Qed.

(** There is one ascending arrangement of the files that keeps the order
    of the files of one chain id. *)
Lemma stable_sorted_unique (l1 l2 : list (Z * string)) :
  Permutation l1 l2 ->
  StronglySorted (fun a b : Z * string => (fst a <= fst b)%Z) l1 ->
  StronglySorted (fun a b : Z * string => (fst a <= fst b)%Z) l2 ->
  (forall n, filter (fun kf : Z * string => (fst kf =? n)%Z) l1 =
             filter (fun kf : Z * string => (fst kf =? n)%Z) l2) ->
  l1 = l2.
Proof.
  revert l2. induction l1 as [|a l1 IH]; intros l2 Hp H1 H2 Hf.
  - apply Permutation_nil in Hp. congruence.
  - destruct l2 as [|b l2];
      [apply Permutation_sym, Permutation_nil in Hp; discriminate|].
    inversion H1 as [|? ? H1' Ha]; subst.
    inversion H2 as [|? ? H2' Hb]; subst.
    assert (Hk : fst a = fst b).
    { assert (Hina : In a (b :: l2))
        by (apply (Permutation_in _ Hp); left; reflexivity).
      assert (Hinb : In b (a :: l1))
        by (apply (Permutation_in _ (Permutation_sym Hp)); left;
            reflexivity).
      rewrite Forall_forall in Ha, Hb.
      assert (fst b <= fst a)%Z
        by (destruct Hina as [->|Hina]; [lia|apply Hb; exact Hina]).
      assert (fst a <= fst b)%Z
        by (destruct Hinb as [->|Hinb]; [lia|apply Ha; exact Hinb]).
      lia. }
    assert (Hab : a = b).
    { specialize (Hf (fst a)). cbn [filter] in Hf.
      rewrite <- Hk, Z.eqb_refl in Hf. congruence. }
    subst b. f_equal. apply IH.
    + apply Permutation_cons_inv in Hp. exact Hp.
    + exact H1'.
    + exact H2'.
    + intros n. specialize (Hf n). cbn [filter] in Hf.
      destruct (fst a =? n)%Z; congruence.
Qed.

Lemma sortFiles_characterised keyed sorted :
  Permutation sorted keyed ->
  StronglySorted (fun a b : Z * string => (fst a <= fst b)%Z) sorted ->
  (forall n, filter (fun kf : Z * string => (fst kf =? n)%Z) sorted =
             filter (fun kf : Z * string => (fst kf =? n)%Z) keyed) ->
  sortFiles keyed = sorted.
Proof.
  intros Hp Hs Hf. apply stable_sorted_unique.
  - rewrite sortFiles_perm. symmetry. exact Hp.
  - apply sortFiles_sorted.
  - exact Hs.
  - intros n. rewrite sortFiles_filter. symmetry. apply Hf.
Qed.

Lemma same_key_same_file (l : list (Z * string)) a b :
  NoDup (map fst l) -> In a l -> In b l -> fst a = fst b -> a = b.
Proof.
  induction l as [|c l IH]; cbn; [tauto|].
  intros Hnd Ha Hb Hk. inversion Hnd as [|? ? Hc Hnd']; subst.
  destruct Ha as [->|Ha], Hb as [->|Hb].
  - reflexivity.
  - exfalso. apply Hc. rewrite Hk. apply in_map. exact Hb.
  - exfalso. apply Hc. rewrite <- Hk. apply in_map. exact Ha.
  - apply IH; assumption.
Qed.

(** Two sorted lists of the same files with different chain ids are the
    same list. *)
Lemma sorted_unique (l1 l2 : list (Z * string)) :
  Permutation l1 l2 ->
  StronglySorted (fun a b : Z * string => (fst a <= fst b)%Z) l1 ->
  StronglySorted (fun a b : Z * string => (fst a <= fst b)%Z) l2 ->
  NoDup (map fst l1) -> l1 = l2.
Proof.
  revert l2. induction l1 as [|a l1 IH]; intros l2 Hp H1 H2 Hnd.
  - apply Permutation_nil in Hp. congruence.
  - destruct l2 as [|b l2];
      [apply Permutation_sym, Permutation_nil in Hp; discriminate|].
    inversion H1 as [|? ? H1' Ha]; subst.
    inversion H2 as [|? ? H2' Hb]; subst.
    assert (Hab : a = b).
    { apply (same_key_same_file (a :: l1)); [exact Hnd|left; reflexivity| |].
      - apply (Permutation_in _ (Permutation_sym Hp)). left. reflexivity.
      - assert (Hina : In a (b :: l2))
          by (apply (Permutation_in _ Hp); left; reflexivity).
        assert (Hinb : In b (a :: l1))
          by (apply (Permutation_in _ (Permutation_sym Hp)); left;
              reflexivity).
        rewrite Forall_forall in Ha, Hb.
        assert (fst b <= fst a)%Z
          by (destruct Hina as [->|Hina]; [lia|apply Hb; exact Hina]).
        assert (fst a <= fst b)%Z
          by (destruct Hinb as [->|Hinb]; [lia|apply Ha; exact Hinb]).
        lia. }
    subst b. f_equal. apply IH.
    + apply Permutation_cons_inv in Hp. exact Hp.
    + exact H1'.
    + exact H2'.
    + inversion Hnd. assumption.
Qed.

Lemma sortFiles_Permutation l l' :
  NoDup (map fst l) -> Permutation l l' -> sortFiles l = sortFiles l'.
Proof.
  intros Hnd Hp. apply sorted_unique.
  - rewrite !sortFiles_perm. exact Hp.
  - apply sortFiles_sorted.
  - apply sortFiles_sorted.
  - eapply Permutation_NoDup; [|exact Hnd].
    apply Permutation_map, Permutation_sym, sortFiles_perm.
Qed.

Lemma keyedFiles_Some files keyed :
  keyedFiles files = Some keyed ->
  Forall (fun f => chainIdOfFile f <> None) files /\
  keyed = map (fun f => (chainOrZero f, f)) files.
Proof.
  revert keyed. induction files as [|f files IH]; cbn [keyedFiles map].
  - intros keyed [= <-]. auto.
  - intros keyed. unfold chainOrZero at 1.
    destruct (chainIdOfFile f) as [n|] eqn:E; [|discriminate].
    destruct (keyedFiles files) as [keyed'|]; [|discriminate].
    intros [= <-]. destruct (IH keyed' eq_refl) as [Hall ->].
    split; [constructor; [congruence|exact Hall]|reflexivity].
Qed.

Lemma keyedFiles_all files :
  Forall (fun f => chainIdOfFile f <> None) files ->
  keyedFiles files = Some (map (fun f => (chainOrZero f, f)) files).
Proof.
  induction 1 as [|f files Hf _ IH]; cbn [keyedFiles map]; [reflexivity|].
  rewrite IH.
  assert (E : chainIdOfFile f = Some (chainOrZero f))
    by (unfold chainOrZero; destruct (chainIdOfFile f); congruence).
  rewrite E. reflexivity.
Qed.

Lemma checkFileNames_keyed files keyed :
  keyedFiles files = Some keyed -> checkFileNames files = Done tt.
Proof.
  intros H. apply keyedFiles_Some in H. destruct H as [Hall _].
  apply checkFileNames_Done.
  apply Forall_forall. intros f Hf. rewrite Forall_forall in Hall.
  specialize (Hall f Hf).
  destruct (chainIdOfFile f) as [n|] eqn:E; [|congruence].
  apply (chainIdOfFile_matchFileName f n E).
Qed.

(** ** Collecting the tokens *)

Lemma collectFile_valid f n parsed :
  forallb hasAddress parsed = true ->
  collectFile f n parsed =
  Done (map (fun token =>
               withChainId token (orEmptyString (rawAddress token)) n)
            parsed).
Proof.
  induction parsed as [|token parsed IH]; cbn [forallb collectFile map];
    [reflexivity|].
  unfold hasAddress at 1. intros [Ht Hp]%andb_true_iff.
  destruct (rawAddress token) as [addr|]; [|discriminate].
  rewrite (IH Hp). reflexivity.
Qed.

Lemma collectFile_invalid f n parsed :
  forallb hasAddress parsed = false ->
  collectFile f n parsed =
  Exit EX_DATAERR
    ("Invalid token in file, no address - " ++ f ++ " - [object Object]").
Proof.
  induction parsed as [|token parsed IH]; cbn [forallb collectFile];
    [discriminate|].
  unfold hasAddress at 1.
  destruct (rawAddress token) as [addr|]; [|reflexivity].
  cbn [andb]. intros Hp. rewrite (IH Hp). reflexivity.
Qed.

Section BuildFacts.

Variable readTokens : string -> option (list FileToken).

Lemma collectTokens_valid sorted :
  forallb (fun kf => validFile readTokens (snd kf)) sorted = true ->
  collectTokens readTokens sorted =
  Done (flat_map (tokensOfFile readTokens) sorted).
Proof.
  induction sorted as [|[n f] sorted IH];
    cbn [forallb collectTokens flat_map]; [reflexivity|].
  unfold validFile at 1, tokensOfFile at 1. cbn [fst snd].
  intros [Hf Hs]%andb_true_iff.
  destruct (readTokens f) as [parsed|]; [|discriminate].
  rewrite (collectFile_valid f n parsed Hf), (IH Hs). reflexivity.
Qed.

Lemma collectTokens_invalid sorted :
  forallb (fun kf => validFile readTokens (snd kf)) sorted = false ->
  exists stderr,
    collectTokens readTokens sorted = Exit EX_DATAERR stderr.
Proof.
  induction sorted as [|[n f] sorted IH];
    cbn [forallb collectTokens]; [discriminate|].
  unfold validFile at 1. cbn [fst snd].
  destruct (readTokens f) as [parsed|]; [|eexists; reflexivity].
  destruct (forallb hasAddress parsed) eqn:Hf.
  - cbn [andb]. intros Hs. destruct (IH Hs) as [msg Hmsg].
    rewrite (collectFile_valid f n parsed Hf), Hmsg.
    eexists. reflexivity.
  - intros _. rewrite (collectFile_invalid f n parsed Hf).
    eexists. reflexivity.
Qed.

(** The loop passes the valid files and ends at the first other one. *)
Lemma collectTokens_app pre rest :
  forallb (validFile readTokens) (map snd pre) = true ->
  collectTokens readTokens (pre ++ rest) =
  andThen (collectTokens readTokens rest) (fun tokens =>
  Done (flat_map (tokensOfFile readTokens) pre ++ tokens)).
Proof.
  induction pre as [|[n f] pre IH];
    cbn [map forallb app collectTokens flat_map snd].
  - intros _. destruct (collectTokens readTokens rest); reflexivity.
  - unfold validFile at 1, tokensOfFile at 1. cbn [fst snd].
    intros [Hf Hs]%andb_true_iff.
    destruct (readTokens f) as [parsed|]; [|discriminate].
    rewrite (collectFile_valid f n parsed Hf), (IH Hs). cbn [andThen].
    destruct (collectTokens readTokens rest); cbn [andThen];
      [rewrite app_assoc|..]; reflexivity.
Qed.

Lemma forallb_Permutation {A : Type} (p : A -> bool) l l' :
  Permutation l l' -> forallb p l = forallb p l'.
Proof.
  induction 1 as [|x l l' _ IH|x y l|l l' l'' _ IH1 _ IH2]; cbn.
  - reflexivity.
  - rewrite IH. reflexivity.
  - destruct (p x), (p y); reflexivity.
  - congruence.
Qed.

Lemma valid_sorted files keyed :
  keyedFiles files = Some keyed ->
  forallb (fun kf => validFile readTokens (snd kf)) (sortFiles keyed) =
  forallb (validFile readTokens) files.
Proof.
  intros H. apply keyedFiles_Some in H. destruct H as [_ ->].
  rewrite (forallb_Permutation _ _ _ (sortFiles_perm _)).
  induction files as [|f files IH]; cbn; [reflexivity|].
  rewrite IH. reflexivity.
Qed.

Lemma tokensOfFile_chain kf t :
  In t (tokensOfFile readTokens kf) -> chainId t = Some (fst kf).
Proof.
  unfold tokensOfFile. destruct (readTokens (snd kf)); [|intros []].
  intros H. apply in_map_iff in H. destruct H as (r & <- & _).
  reflexivity.
Qed.

Lemma githubLogoURI_clean o uri :
  githubLogoURI o = Some uri ->
  uri <> ""%string /\ String.prefix ".." uri = false.
Proof.
  unfold githubLogoURI. destruct o as [s|]; [|discriminate].
  destruct (String.eqb s "") eqn:E; [discriminate|]. intros [= <-].
  split; [|apply replaceLeadingDots_no_dots].
  apply String.eqb_neq in E. unfold replaceLeadingDots.
  destruct (stripPrefix ".." s); [discriminate|exact E].
Qed.

End BuildFacts.

(** X19: when every name has a chain id, none above 2^53, and every file
    either does not parse or holds an array of token objects, let [sorted]
    be the files in ascending order of chain id, the files of one chain id
    in the order given. The build gives tokens exactly when every file
    parses and every token in it has an address, and these are then the
    tokens of the files of [sorted], in this order, each with the chain id
    of its file and its logo rewritten. When all files before a file of
    [sorted] are such files and this one does not parse, or holds a token
    without address, the script exits with [EX_DATAERR] and names this
    file. *)
Theorem build_outcome
    (readTokens : string -> option (list FileToken))
    (files : list string) (keyed sorted : list (Z * string)) :
  keyedFiles files = Some keyed ->
  Forall (fun kf => (fst kf <= 2 ^ 53)%Z) keyed ->
  Permutation sorted keyed ->
  StronglySorted (fun a b : Z * string => (fst a <= fst b)%Z) sorted ->
  (forall n, filter (fun kf : Z * string => (fst kf =? n)%Z) sorted =
             filter (fun kf : Z * string => (fst kf =? n)%Z) keyed) ->
  (forallb (validFile readTokens) files = true ->
   buildTokens readTokens files =
   Done (map withGithubLogo (flat_map (tokensOfFile readTokens) sorted))) /\
  (forall tokens, buildTokens readTokens files = Done tokens ->
                  forallb (validFile readTokens) files = true) /\
  (forall pre n f post,
     sorted = pre ++ (n, f) :: post ->
     forallb (validFile readTokens) (map snd pre) = true ->
     (readTokens f = None ->
      buildTokens readTokens files =
      Exit EX_DATAERR ("Invalid token file - " ++ f)) /\
     (forall parsed,
        readTokens f = Some parsed -> forallb hasAddress parsed = false ->
        buildTokens readTokens files =
        Exit EX_DATAERR
          ("Invalid token in file, no address - " ++ f ++
           " - [object Object]"))).
Proof.
  intros Hk _ Hp Hs Hf. unfold buildTokens.
  rewrite (checkFileNames_keyed files keyed Hk), Hk. cbn [andThen].
  rewrite (sortFiles_characterised keyed sorted Hp Hs Hf).
  assert (Hv : forallb (fun kf => validFile readTokens (snd kf)) sorted =
               forallb (validFile readTokens) files).
  { rewrite <- (sortFiles_characterised keyed sorted Hp Hs Hf).
    apply valid_sorted. exact Hk. }
  split; [|split].
  - intros H. rewrite H in Hv.
    rewrite (collectTokens_valid readTokens _ Hv). reflexivity.
  - intros tokens H.
    destruct (forallb (validFile readTokens) files); [reflexivity|].
    destruct (collectTokens_invalid readTokens _ Hv) as [msg Hmsg].
    rewrite Hmsg in H. discriminate.
  - intros pre n f post -> Hpre.
    rewrite (collectTokens_app readTokens pre _ Hpre).
    cbn [collectTokens]. split.
    + intros ->. reflexivity.
    + intros parsed -> Ha.
      rewrite (collectFile_invalid f n parsed Ha). reflexivity.
Qed.

Lemma build_outcome_witness :
  buildTokens
    (fun f => if String.eqb f "chains/1.json"
              then Some [mkFileToken (Some "0xabc") (Some 5%Z) "Test" "TEST"
                           18 (Some "../images/t.png")]
              else Some [mkFileToken (Some "0xdef") None "Other" "OTH" 6
                           None])
    ["chains/10.json"; "chains/1.json"] =
  Done [mkToken "0xabc" (Some 1%Z) "Test" "TEST" 18
          (Some
             "https://github.com/tallycash/token-list/raw/main/images/t.png");
        mkToken "0xdef" (Some 10%Z) "Other" "OTH" 6 None].
Proof.
  apply (proj1 (build_outcome
                  (fun f => if String.eqb f "chains/1.json"
                            then Some [mkFileToken (Some "0xabc") (Some 5%Z)
                                         "Test" "TEST" 18
                                         (Some "../images/t.png")]
                            else Some [mkFileToken (Some "0xdef") None
                                         "Other" "OTH" 6 None])
                  ["chains/10.json"; "chains/1.json"]
                  [(10%Z, "chains/10.json"); (1%Z, "chains/1.json")]
                  [(1%Z, "chains/1.json"); (10%Z, "chains/10.json")]
                  eq_refl
                  ltac:(repeat constructor; cbn; lia)
                  (perm_swap _ _ _)
                  ltac:(repeat constructor; cbn; lia)
                  ltac:(intros n; cbn [filter fst];
                        destruct (Z.eqb_spec 1 n), (Z.eqb_spec 10 n);
                        try reflexivity; lia))).
  reflexivity.
Defined.

(** X20: every token of a built list has the chain id of one of the files,
    whatever chainId the file gave it, and its logo is absent or is a
    non-empty string that does not start with [..]. *)
Theorem built_tokens_invariant
    (readTokens : string -> option (list FileToken))
    (files : list string) (tokens : list Token) :
  buildTokens readTokens files = Done tokens ->
  Forall (fun t =>
            (exists f n, In f files /\ chainIdOfFile f = Some n /\
                         chainId t = Some n) /\
            (forall uri, logoURI t = Some uri ->
                         uri <> ""%string /\
                         String.prefix ".." uri = false)) tokens.
Proof.
  unfold buildTokens. intros H.
  destruct (checkFileNames files) as [[]| |]; cbn [andThen] in H;
    try discriminate.
  destruct (keyedFiles files) as [keyed|] eqn:Hk; [|discriminate].
  destruct (forallb (fun kf => validFile readTokens (snd kf))
              (sortFiles keyed)) eqn:Hv.
  - rewrite (collectTokens_valid readTokens _ Hv) in H.
    cbn [andThen] in H. injection H as <-.
    apply Forall_forall. intros t Ht.
    apply in_map_iff in Ht. destruct Ht as (t0 & <- & Ht0).
    apply in_flat_map in Ht0. destruct Ht0 as ([n f] & Hin & Ht0).
    apply tokensOfFile_chain in Ht0. cbn [fst] in Ht0.
    apply (Permutation_in _ (sortFiles_perm keyed)) in Hin.
    apply keyedFiles_Some in Hk. destruct Hk as [Hall ->].
    apply in_map_iff in Hin. destruct Hin as (f' & [= <- <-] & Hf).
    split.
    + exists f', (chainOrZero f'). split; [exact Hf|].
      rewrite Forall_forall in Hall. specialize (Hall f' Hf).
      unfold chainOrZero in *.
      destruct (chainIdOfFile f'); [auto|congruence].
    + intros uri Huri. cbn [withGithubLogo logoURI] in Huri.
      apply (githubLogoURI_clean _ _ Huri).
  - destruct (collectTokens_invalid readTokens _ Hv) as [msg Hmsg].
    rewrite Hmsg in H. discriminate.
Qed.

Lemma built_tokens_invariant_witness :
  Forall (fun t =>
            (exists f n, In f ["chains/10.json"] /\
                         chainIdOfFile f = Some n /\ chainId t = Some n) /\
            (forall uri, logoURI t = Some uri ->
                         uri <> ""%string /\
                         String.prefix ".." uri = false))
    [mkToken "0xabc" (Some 10%Z) "Test" "TEST" 18
       (Some "https://github.com/tallycash/token-list/raw/main/images/t.png")].
Proof.
  apply (built_tokens_invariant
           (fun _ => Some [mkFileToken (Some "0xabc") (Some 1%Z) "Test"
                             "TEST" 18 (Some "../images/t.png")])
           ["chains/10.json"]).
  reflexivity.
Defined.

(** X21: when every name has a chain id, none above 2^53, and no two names
    have the same one, the outcome of the build does not depend on the
    order in which the names are given. *)
Theorem build_order_independent
    (readTokens : string -> option (list FileToken))
    (files files' : list string) (keyed : list (Z * string)) :
  keyedFiles files = Some keyed ->
  Forall (fun kf => (fst kf <= 2 ^ 53)%Z) keyed ->
  NoDup (map fst keyed) ->
  Permutation files files' ->
  buildTokens readTokens files = buildTokens readTokens files'.
Proof.
  intros Hk _ Hnd Hp.
  pose proof (keyedFiles_Some files keyed Hk) as [Hall Hkeyed].
  assert (Hk' : keyedFiles files' =
                Some (map (fun f => (chainOrZero f, f)) files')).
  { apply keyedFiles_all. eapply Permutation_Forall; eassumption. }
  unfold buildTokens.
  rewrite (checkFileNames_keyed _ _ Hk), (checkFileNames_keyed _ _ Hk').
  rewrite Hk, Hk'. cbn [andThen].
  rewrite (sortFiles_Permutation keyed
             (map (fun f => (chainOrZero f, f)) files') Hnd);
    [reflexivity|].
  rewrite Hkeyed. apply Permutation_map. exact Hp.
Qed.

Lemma build_order_independent_witness :
  buildTokens
    (fun f => if String.eqb f "chains/1.json"
              then Some [mkFileToken (Some "0xabc") (Some 5%Z) "Test" "TEST"
                           18 (Some "../images/t.png")]
              else Some [mkFileToken (Some "0xdef") None "Other" "OTH" 6
                           None])
    ["chains/10.json"; "chains/1.json"] =
  buildTokens
    (fun f => if String.eqb f "chains/1.json"
              then Some [mkFileToken (Some "0xabc") (Some 5%Z) "Test" "TEST"
                           18 (Some "../images/t.png")]
              else Some [mkFileToken (Some "0xdef") None "Other" "OTH" 6
                           None])
    ["chains/1.json"; "chains/10.json"].
Proof.
  apply (build_order_independent _
           ["chains/10.json"; "chains/1.json"]
           ["chains/1.json"; "chains/10.json"]
           [(10%Z, "chains/10.json"); (1%Z, "chains/1.json")]).
  - reflexivity.
  - repeat constructor; cbn; lia.
  - constructor; [|constructor; [|constructor]].
    + intros [H|[]]. discriminate H.
    + intros [].
  - apply perm_swap.
Defined.

(** * Properties of the test file *)

Lemma sameVerdict_eq v w : sameVerdict v w = true <-> v = w.
Proof.
  destruct v as [[]|], w as [[]|]; cbn; split; congruence.
Qed.

Lemma runTests_counts classifier cases passed failed :
  fst (runTests classifier cases passed failed) +
  snd (runTests classifier cases passed failed) =
  passed + failed + List.length cases /\
  (snd (runTests classifier cases passed failed) = failed <->
   Forall (fun test => classifier (testChanges test) = expected test)
     cases) /\
  failed <= snd (runTests classifier cases passed failed).
Proof.
  revert passed failed.
  induction cases as [|test cases IH]; intros passed failed;
    cbn [runTests List.length].
  - cbn [fst snd]. split; [lia|]. split; [|lia]. split; auto.
  - destruct (sameVerdict (classifier (testChanges test)) (expected test))
      eqn:E.
    + apply sameVerdict_eq in E.
      destruct (IH (S passed) failed) as (H1 & H2 & H3).
      split; [lia|]. split; [|exact H3].
      rewrite H2. split; [intros H; constructor; assumption|].
      intros H. inversion H. assumption.
    + destruct (IH passed (S failed)) as (H1 & H2 & H3).
      split; [lia|]. split; [|lia]. split; [lia|].
      intros H. inversion H as [|? ? Ht _]; subst.
      apply sameVerdict_eq in Ht. congruence.
Qed.

(** X22: the test file counts every case as passed or as failed, and it ends
    with the exit code 0 exactly when the classifier returns the expected
    verdict for every case, and with 1 otherwise. *)
Theorem test_run_exit_code
    (classifier : list TokenChange -> Verdict) (cases : list TestCase) :
  fst (runTests classifier cases 0 0) + snd (runTests classifier cases 0 0) =
    List.length cases /\
  (testExitCode classifier cases = 0%Z <->
   Forall (fun test => classifier (testChanges test) = expected test)
     cases) /\
  (testExitCode classifier cases = 0%Z \/
   testExitCode classifier cases = 1%Z).
Proof.
  destruct (runTests_counts classifier cases 0 0) as (H1 & H2 & H3).
  split; [exact H1|]. unfold testExitCode.
  destruct (Nat.ltb_spec 0 (snd (runTests classifier cases 0 0)))
    as [Hlt|Hge].
  - split; [|auto]. split; [discriminate|].
    intros H. apply H2 in H. lia.
  - split; [|auto]. split; [|reflexivity].
    intros _. apply H2. lia.
Qed.

(** X23: the fourteen cases of the test file get their expected verdict from
    the classifier of the build script as well as from the copy in the test
    file, so the test file ends with the exit code 0 for either. *)
Theorem repository_tests_pass :
  List.length testCases = 14 /\
  Forall (fun test =>
            determineVersionIncrement (testChanges test) = expected test /\
            determineVersionIncrementTest (testChanges test) = expected test)
    testCases /\
  testExitCode determineVersionIncrement testCases = 0%Z /\
  testExitCode determineVersionIncrementTest testCases = 0%Z.
Proof.
  split; [reflexivity|]. split; [|split; vm_compute; reflexivity].
  repeat constructor.
Qed.

Lemma test_run_exit_code_witness :
  testExitCode determineVersionIncrement
    [mkTestCase "No changes (no increment)"
       [mkChange "chains/1.json" modified
          (Some [Examples.tokenTest]) (Some [Examples.tokenTest])]
       None;
     mkTestCase "Name change (patch)" [Examples.metadataRecord]
       (Some Patch)] = 0%Z.
Proof.
  apply (test_run_exit_code determineVersionIncrement
           [mkTestCase "No changes (no increment)"
              [mkChange "chains/1.json" modified
                 (Some [Examples.tokenTest]) (Some [Examples.tokenTest])]
              None;
            mkTestCase "Name change (patch)" [Examples.metadataRecord]
              (Some Patch)]).
  repeat constructor.
Defined.
